(** * ChaCha20 stream cipher engine (src/chacha20.ts): a shallow embedding

    The TypeScript class [Chacha20] keeps three mutable fields, [_param]
    (16 numbers), [_keystream] (64 numbers) and [_byteCounter].  Its methods
    are embedded as functions on a record holding these fields.  JavaScript
    numbers that hold integers are embedded as [Z]; the operators the source
    uses on them ([+], [++], [^], [|], [&], [<<], [>>>]) are embedded with
    their ECMAScript meaning on integer-valued numbers, including the
    conversion to 32 bits that the bitwise operators perform and the rounding
    of [+] to a binary64 number.  [Uint8Array]s live in a heap and are passed
    by reference. *)

From Stdlib Require Import ZArith Lia Strings.String Strings.Byte.
From stdpp Require Import base option list gmap.

Local Open Scope Z_scope.

(** Linear arithmetic with division and remainder by constants. *)
Ltac div_lia := intros; Z.div_mod_to_equations; lia.

(** ** JavaScript numbers restricted to integers *)

Module JS.

(** Nearest binary64 number of an integer, ties to even: integers up to
    [2^53] in magnitude are numbers as they are; a larger one keeps its 53
    leading bits. *)
Definition fl (z : Z) : Z :=
  if Z.abs z <=? 2 ^ 53 then z
  else
    let e := Z.log2 (Z.abs z) - 52 in
    let q := Z.abs z / 2 ^ e in
    let r := Z.abs z mod 2 ^ e in
    let q' :=
      if 2 * r <? 2 ^ e then q
      else if 2 ^ e <? 2 * r then q + 1
      else if Z.even q then q else q + 1 in
    Z.sgn z * (q' * 2 ^ e).

(** The abstract operations ToInt32 and ToUint32 on an integer. *)
Definition ToInt32 (x : Z) : Z := (x + 2 ^ 31) mod 2 ^ 32 - 2 ^ 31.
Definition ToUint32 (x : Z) : Z := x mod 2 ^ 32.

(** [x + y], [x - y] *)
Definition add (x y : Z) : Z := fl (x + y).
Definition sub (x y : Z) : Z := fl (x - y).
(** [x ^ y], [x | y], [x & y]: both operands through ToInt32, the result
    is a signed 32-bit integer. *)
Definition xor (x y : Z) : Z := Z.lxor (ToInt32 x) (ToInt32 y).
Definition or (x y : Z) : Z := Z.lor (ToInt32 x) (ToInt32 y).
Definition and (x y : Z) : Z := Z.land (ToInt32 x) (ToInt32 y).
(** [x << n]: signed result; the shift count is taken modulo 32. *)
Definition shl (x n : Z) : Z :=
  ToInt32 (Z.shiftl (ToInt32 x) (ToUint32 n mod 32)).
(** [x >>> n]: unsigned result. *)
Definition shr (x n : Z) : Z :=
  Z.shiftr (ToUint32 x) (ToUint32 n mod 32).

End JS.

(** ** Array elements *)

(** Elements of a [Uint8Array]. *)
Definition u8_to_Z (b : byte) : Z := Z.of_N (Byte.to_N b).
(** Storing a number into a [Uint8Array] keeps it modulo 256. *)
Definition u8_of_Z (z : Z) : byte :=
  default x00 (Byte.of_N (Z.to_N (z mod 256))).

(** [a[i]] on an array of numbers and on a typed array.  JavaScript reads
    [undefined] outside the array, which counts as 0 where the program reads
    [_keystream] and the typed arrays, as operands of [^] and [<<].  The
    other arrays, [_param] and the local [mix], have 16 entries and are read
    and written at the indices 0 to 15; [_keystream] has 64 entries and is
    written at the indices 0 to 63 ([advance_initial_state] below), so that
    no write extends an array. *)
Definition get (a : list Z) (i : nat) : Z := default 0 (a !! i).
Definition get8 (a : list byte) (i : nat) : Z := default 0 (u8_to_Z <$> a !! i).

(** ** Values, the heap of typed arrays, and errors *)

(** A [Uint8Array] is an object: values hold a reference to it, the heap
    holds its bytes.  The other constructors are the values that are not
    [Uint8Array]s which a caller can pass at run time. *)
Abbreviation loc := positive.

Inductive value : Type :=
| VUndefined
| VNull
| VNumber (n : Z)
| VArray (a : list Z)
| VUint8Array (l : loc).

Abbreviation heap := (gmap positive (list byte)).

(** [throw new Error(message)] or a normal return. *)
Inductive result (A : Type) : Type :=
| Ok (a : A)
| Throw (message : string).
Arguments Ok {A} a.
Arguments Throw {A} message.

(** The bytes behind a value, if it is a [Uint8Array] of the heap; a
    reference that the heap does not hold denotes no object. *)
Definition as_Uint8Array (h : heap) (v : value) : option (list byte) :=
  match v with
  | VUint8Array l => h !! l
  | _ => None
  end.

(** [v instanceof Uint8Array] *)
Definition instanceof_Uint8Array (h : heap) (v : value) : bool :=
  bool_decide (is_Some (as_Uint8Array h v)).

(** [v.length], read only after the [instanceof] test succeeded. *)
Definition length_of (h : heap) (v : value) : nat :=
  length (default [] (as_Uint8Array h v)).

(** [data[i]] and [output[i] = x] on typed arrays of the heap. *)
Definition read8 (h : heap) (l : loc) (i : nat) : Z :=
  get8 (default [] (h !! l)) i.
Definition write8 (h : heap) (l : loc) (i : nat) (x : Z) : heap :=
  alter (fun a => <[i := u8_of_Z x]> a) l h.

(** [new Uint8Array(n)]: a new object, [n] zero bytes. *)
Definition new_Uint8Array (h : heap) (n : nat) : loc * heap :=
  let l := fresh (dom h) in
  (l, <[l := replicate n x00]> h).

(** ** The class *)

(** The fields the methods read and write.  [_byteCounter] counts from 0
    to 64.  The read-only properties [key], [nonce] and [counter] are read
    by the constructor only and are its arguments here. *)
Record Chacha20 : Type := mkChacha20 {
  _param : list Z;
  _keystream : list Z;
  _byteCounter : nat
}.

Definition _rounds : Z := 20.
Definition _sigma : list Z := [0x61707865; 0x3320646e; 0x79622d32; 0x6b206574].

(** [_rotl(data, shift)] *)
Definition _rotl (data shift : Z) : Z :=
  JS.or (JS.shl data shift) (JS.shr data (JS.sub 32 shift)).

(** [_get32(data, index)] *)
Definition _get32 (data : list byte) (index : nat) : Z :=
  JS.xor (JS.xor (JS.xor (get8 data index)
                         (JS.shl (get8 data (index + 1)) 8))
                 (JS.shl (get8 data (index + 2)) 16))
         (JS.shl (get8 data (index + 3)) 24).

(** One line of [_quarterround]:
    [output[x] = _rotl(output[x] ^ (output[y] += output[z]), s)].
    The left operand [output[x]] is read before the compound assignment,
    whose value is the sum it stores. *)
Definition qr_line (output : list Z) (x y z : nat) (s : Z) : list Z :=
  let ox := get output x in
  let r := JS.add (get output y) (get output z) in
  let output := <[y := r]> output in
  <[x := _rotl (JS.xor ox r) s]> output.

(** [output[i] >>>= 0] *)
Definition to_uint32_at (output : list Z) (i : nat) : list Z :=
  <[i := JS.shr (get output i) 0]> output.

(** [_quarterround(output, a, b, c, d)] *)
Definition _quarterround (output : list Z) (a b c d : nat) : list Z :=
  let output := qr_line output d a b 16 in
  let output := qr_line output b c d 12 in
  let output := qr_line output d a b 8 in
  let output := qr_line output b c d 7 in
  let output := to_uint32_at output a in
  let output := to_uint32_at output b in
  let output := to_uint32_at output c in
  to_uint32_at output d.

(** Body of the round loop of [_chacha]. *)
Definition double_round (mix : list Z) : list Z :=
  let mix := _quarterround mix 0 4 8 12 in
  let mix := _quarterround mix 1 5 9 13 in
  let mix := _quarterround mix 2 6 10 14 in
  let mix := _quarterround mix 3 7 11 15 in
  let mix := _quarterround mix 0 5 10 15 in
  let mix := _quarterround mix 1 6 11 12 in
  let mix := _quarterround mix 2 7 8 13 in
  _quarterround mix 3 4 9 14.

(** [for (i = 0; i < this._rounds; i += 2) { ... }], started at [i]; the
    loop is entered 10 times, so a fuel of 20 is enough. *)
Fixpoint mix_rounds (fuel : nat) (i : Z) (mix : list Z) : list Z :=
  match fuel with
  | O => mix
  | S fuel' =>
      if i <? _rounds then mix_rounds fuel' (JS.add i 2) (double_round mix)
      else mix
  end.

(** Body of the last loop of [_chacha], on the locals [mix] and [b] and the
    field [_keystream]. *)
Definition store_word (param : list Z) (st : list Z * list Z * nat) (i : nat)
  : list Z * list Z * nat :=
  let '(mix, keystream, b) := st in
  let mix := <[i := JS.add (get mix i) (get param i)]> mix in
  let keystream := <[b := JS.and (get mix i) 0xFF]> keystream in
  let b := S b in
  let keystream := <[b := JS.and (JS.shr (get mix i) 8) 0xFF]> keystream in
  let b := S b in
  let keystream := <[b := JS.and (JS.shr (get mix i) 16) 0xFF]> keystream in
  let b := S b in
  let keystream := <[b := JS.and (JS.shr (get mix i) 24) 0xFF]> keystream in
  let b := S b in
  (mix, keystream, b).

(** [_chacha()] *)
Definition _chacha (this : Chacha20) : Chacha20 :=
  let mix := replicate 16 0 in
  let mix := foldl (fun mix i => <[i := get (_param this) i]> mix) mix (seq 0 16) in
  let mix := mix_rounds 20 0 mix in
  let '(_, keystream, _) :=
    foldl (store_word (_param this)) (mix, _keystream this, 0%nat) (seq 0 16) in
  {| _param := _param this;
     _keystream := keystream;
     _byteCounter := _byteCounter this |}.

(** [new Chacha20(key, nonce, counter)]; [counter] is optional. *)
Definition constructor (h : heap) (key nonce : value) (counter : option Z)
  : result Chacha20 :=
  if negb (instanceof_Uint8Array h key) || negb (length_of h key =? 32)%nat then
    Throw "Key should be 32 byte array!"
  else if negb (instanceof_Uint8Array h nonce) || negb (length_of h nonce =? 12)%nat then
    Throw "Nonce should be 12 byte array!"
  else
    (* if (!counter) this.counter = 0 *)
    let counter := match counter with
                   | None => 0
                   | Some c => if c =? 0 then 0 else c
                   end in
    let key := default [] (as_Uint8Array h key) in
    let nonce := default [] (as_Uint8Array h nonce) in
    Ok {| _param :=
            [ get _sigma 0; get _sigma 1; get _sigma 2; get _sigma 3;
              _get32 key 0; _get32 key 4; _get32 key 8; _get32 key 12;
              _get32 key 16; _get32 key 20; _get32 key 24; _get32 key 28;
              counter;
              _get32 nonce 0; _get32 nonce 4; _get32 nonce 8 ];
          _keystream := replicate 64 0;
          _byteCounter := 0 |}.

(** The guarded block of the loop of [_update]:
    [if (this._byteCounter === 0 || this._byteCounter === 64)
       { this._chacha(); this._param[12]++; this._byteCounter = 0 }]. *)
Definition refill (this : Chacha20) : Chacha20 :=
  if (_byteCounter this =? 0)%nat || (_byteCounter this =? 64)%nat then
    let this := _chacha this in
    let this := {| _param := <[12%nat := JS.add (get (_param this) 12) 1]> (_param this);
                   _keystream := _keystream this;
                   _byteCounter := _byteCounter this |} in
    {| _param := _param this;
       _keystream := _keystream this;
       _byteCounter := 0 |}
  else this.

(** [this._keystream[this._byteCounter++]] *)
Definition next_keystream (this : Chacha20) : Z * Chacha20 :=
  (get (_keystream this) (_byteCounter this),
   {| _param := _param this;
      _keystream := _keystream this;
      _byteCounter := S (_byteCounter this) |}).

(** Body of the loop of [_update], for one index [i]. *)
Definition update_body (data output : loc) (st : heap * Chacha20) (i : nat)
  : heap * Chacha20 :=
  let '(h, this) := st in
  let this := refill this in
  let d := read8 h data i in
  let '(k, this) := next_keystream this in
  (write8 h output i (JS.xor d k), this).

(** [_update(data)]: the result, the heap and the engine after the call. *)
Definition _update (data : value) (h : heap) (this : Chacha20)
  : result value * heap * Chacha20 :=
  if negb (instanceof_Uint8Array h data) || (length_of h data =? 0)%nat then
    (Throw "Data should be type of bytes (Uint8Array) and not empty!", h, this)
  else
    match data with
    | VUint8Array data =>
        let n := length (default [] (h !! data)) in
        let '(output, h) := new_Uint8Array h n in
        let '(h, this) := foldl (update_body data output) (h, this) (seq 0 n) in
        (Ok (VUint8Array output), h, this)
    | _ =>
        (* not reached: the guard has thrown *)
        (Throw "Data should be type of bytes (Uint8Array) and not empty!", h, this)
    end.

(** [encrypt(data)] and [decrypt(data)] *)
Definition encrypt (data : value) (h : heap) (this : Chacha20) :=
  _update data h this.
Definition decrypt (data : value) (h : heap) (this : Chacha20) :=
  _update data h this.

(** ** The block function in the words of the specification

    Section 4.2 of the specification, on a state of sixteen 32-bit words:
    these definitions follow its text, not the source, and are compared
    with [_chacha] below. *)

Module Spec.

(** "all arithmetic modulo 2^32" *)
Definition add32 (x y : Z) : Z := (x + y) mod 2 ^ 32.

(** "rotate-left(x, n) = ((x << n) | (x >> (32-n))) computed modulo 2^32" *)
Definition rotl32 (x n : Z) : Z :=
  Z.lor (Z.shiftl x n) (Z.shiftr x (32 - n)) mod 2 ^ 32.

(** "Quarter-round(a,b,c,d) on the working buffer":
    a += b; d ^= a; d = rotl(d,16);  c += d; b ^= c; b = rotl(b,12);
    a += b; d ^= a; d = rotl(d,8);   c += d; b ^= c; b = rotl(b,7). *)
Definition quarter_round (w : list Z) (a b c d : nat) : list Z :=
  let w := <[a := add32 (get w a) (get w b)]> w in
  let w := <[d := Z.lxor (get w d) (get w a)]> w in
  let w := <[d := rotl32 (get w d) 16]> w in
  let w := <[c := add32 (get w c) (get w d)]> w in
  let w := <[b := Z.lxor (get w b) (get w c)]> w in
  let w := <[b := rotl32 (get w b) 12]> w in
  let w := <[a := add32 (get w a) (get w b)]> w in
  let w := <[d := Z.lxor (get w d) (get w a)]> w in
  let w := <[d := rotl32 (get w d) 8]> w in
  let w := <[c := add32 (get w c) (get w d)]> w in
  let w := <[b := Z.lxor (get w b) (get w c)]> w in
  <[b := rotl32 (get w b) 7]> w.

(** "first over column index groups ..., then over diagonal index groups" *)
Definition double_round (w : list Z) : list Z :=
  let w := quarter_round w 0 4 8 12 in
  let w := quarter_round w 1 5 9 13 in
  let w := quarter_round w 2 6 10 14 in
  let w := quarter_round w 3 7 11 15 in
  let w := quarter_round w 0 5 10 15 in
  let w := quarter_round w 1 6 11 12 in
  let w := quarter_round w 2 7 8 13 in
  quarter_round w 3 4 9 14.

(** Section 4.1: "word = b0 | (b1<<8) | (b2<<16) | (b3<<24)", a 32-bit
    unsigned value. *)
Definition le_word (b0 b1 b2 b3 : Z) : Z :=
  Z.lor (Z.lor (Z.lor b0 (Z.shiftl b1 8)) (Z.shiftl b2 16)) (Z.shiftl b3 24).

(** "little-endian (4 bytes each, least-significant byte first)" *)
Definition le_bytes (x : Z) : list Z :=
  [x mod 256; (x / 2 ^ 8) mod 256; (x / 2 ^ 16) mod 256; (x / 2 ^ 24) mod 256].

(** Steps 1 to 5: copy the state, 10 double-rounds, add the original state
    word by word, serialize the 16 words. *)
Definition block (state : list Z) : list Z :=
  let w := state in
  let w := Nat.iter 10 double_round w in
  let w := zip_with add32 w state in
  concat (le_bytes <$> w).

End Spec.

(** ** A caller: a sequence of calls on one engine *)

(** What the caller of [encrypt] or [decrypt] sees: the bytes of the
    returned array, or the error. *)
Definition outcome (r : result value * heap * Chacha20) : result (list byte) :=
  match r with
  | (Ok v, h, _) => Ok (default [] (as_Uint8Array h v))
  | (Throw m, _, _) => Throw m
  end.

(** A call by the caller: the method, the heap the call finds, and the
    argument. *)
Inductive method : Type := Encrypt | Decrypt.

Record call : Type := mkCall {
  call_method : method;
  call_heap : heap;
  call_arg : value
}.

Definition invoke (c : call) (this : Chacha20) : result value * heap * Chacha20 :=
  match call_method c with
  | Encrypt => encrypt (call_arg c) (call_heap c) this
  | Decrypt => decrypt (call_arg c) (call_heap c) this
  end.

(** The bytes of the argument of a call, if it is a [Uint8Array]. *)
Definition call_bytes (c : call) : option (list byte) :=
  as_Uint8Array (call_heap c) (call_arg c).

(** A sequence of calls on one engine: what each call gives the caller, and
    the engine after the last one. *)
Fixpoint run (this : Chacha20) (cs : list call)
  : list (result (list byte)) * Chacha20 :=
  match cs with
  | [] => ([], this)
  | c :: cs =>
      let r := invoke c this in
      let '(outs, this') := run r.2 cs in
      (outcome r :: outs, this')
  end.

(** ** The loop of [_update] as a function of the data bytes

    [xor_stream this d] is what the loop of [_update] computes on the bytes
    [d]: one [refill] and one [next_keystream] per byte.  [update_ok] relates
    it to the loop on the heap. *)
Fixpoint xor_stream (this : Chacha20) (d : list byte) : list byte * Chacha20 :=
  match d with
  | [] => ([], this)
  | x :: d =>
      let '(k, this) := next_keystream (refill this) in
      let '(out, this) := xor_stream this d in
      (u8_of_Z (JS.xor (u8_to_Z x) k) :: out, this)
  end.

(** The engine after [n] bytes. *)
Fixpoint advance (n : nat) (this : Chacha20) : Chacha20 :=
  match n with
  | O => this
  | S n => advance n (next_keystream (refill this)).2
  end.

(** [xor_stream] over the chunks of successive calls. *)
Fixpoint xor_chunks (this : Chacha20) (ps : list (list byte))
  : list (list byte) * Chacha20 :=
  match ps with
  | [] => ([], this)
  | p :: ps =>
      let r := xor_stream this p in
      let '(outs, this') := xor_chunks r.2 ps in
      (r.1 :: outs, this')
  end.

(** ** Definitions used in the statements

    The engine a successful construction returns. *)
Definition initial (key nonce : list byte) (counter : option Z) : Chacha20 :=
  {| _param :=
       [ 0x61707865; 0x3320646e; 0x79622d32; 0x6b206574;
         _get32 key 0; _get32 key 4; _get32 key 8; _get32 key 12;
         _get32 key 16; _get32 key 20; _get32 key 24; _get32 key 28;
         default 0 counter;
         _get32 nonce 0; _get32 nonce 4; _get32 nonce 8 ];
     _keystream := replicate 64 0;
     _byteCounter := 0 |}.

Definition data_error : string :=
  "Data should be type of bytes (Uint8Array) and not empty!".
Definition key_error : string := "Key should be 32 byte array!".
Definition nonce_error : string := "Nonce should be 12 byte array!".

(** The word of [data] at byte offset [4 * i] as the specification
    assembles it. *)
Definition le_word_at (data : list byte) (i : nat) : Z :=
  Spec.le_word (get8 data (4 * i)) (get8 data (4 * i + 1))
               (get8 data (4 * i + 2)) (get8 data (4 * i + 3)).

(** Three statements of the quarter-round of the specification:
    y += z; x ^= y; x = rotl(x, s). *)
Definition spec_line (w : list Z) (x y z : nat) (s : Z) : list Z :=
  let w := <[y := Spec.add32 (get w y) (get w z)]> w in
  let w := <[x := Z.lxor (get w x) (get w y)]> w in
  <[x := Spec.rotl32 (get w x) s]> w.

(** The four numbers [_chacha] stores for one word. *)
Definition js_bytes (v : Z) : list Z :=
  [JS.and v 0xFF; JS.and (JS.shr v 8) 0xFF;
   JS.and (JS.shr v 16) 0xFF; JS.and (JS.shr v 24) 0xFF].

(** Signed 32-bit integers, by their value and by their bits. *)
Definition int32 (z : Z) : Prop := - 2 ^ 31 <= z < 2 ^ 31.
Definition sign_extended (z : Z) : Prop :=
  ∀ i, 31 <= i → Z.testbit z i = Z.testbit z 31.

(** Every word of [l] is at most [K] in magnitude. *)
Definition bounded (K : Z) (l : list Z) : Prop := Forall (λ x, Z.abs x <= K) l.

(** The number of bytes a sequence of calls processes: a call that throws
    processes none. *)
Definition total_bytes (cs : list call) : nat :=
  sum_list ((λ c, match call_bytes c with
                  | Some p => length p
                  | None => 0%nat
                  end) <$> cs).

(** [q] has the length of [p] and its words, except possibly word 12. *)
Definition same_but_counter (p q : list Z) : Prop :=
  length q = length p ∧ ∀ i, i ≠ 12%nat → q !! i = p !! i.

(** The position of the cursor in the current block, from 1 to 64: an
    engine that has not produced a byte yet ([_byteCounter] 0) stands like
    one that has used a whole block. *)
Definition position (this : Chacha20) : nat :=
  if (_byteCounter this =? 0)%nat then 64%nat else _byteCounter this.

(** ** Test data

    The key, nonce and text of the last test of test/jschacha20.test.js,
    which are those of RFC 7539, section 2.4.2 (with counter 1), and the
    ciphertext that the RFC gives for them. *)

Definition rfc_key : list byte :=
  [x00;x01;x02;x03;x04;x05;x06;x07;x08;x09;x0a;x0b;x0c;x0d;x0e;x0f;
   x10;x11;x12;x13;x14;x15;x16;x17;x18;x19;x1a;x1b;x1c;x1d;x1e;x1f].
Definition rfc_nonce : list byte :=
  [x00;x00;x00;x00;x00;x00;x00;x4a;x00;x00;x00;x00].
Definition rfc_text : list byte :=
  [x4c;x61;x64;x69;x65;x73;x20;x61;x6e;x64;x20;x47;x65;x6e;x74;x6c;
   x65;x6d;x65;x6e;x20;x6f;x66;x20;x74;x68;x65;x20;x63;x6c;x61;x73;
   x73;x20;x6f;x66;x20;x27;x39;x39;x3a;x20;x49;x66;x20;x49;x20;x63;
   x6f;x75;x6c;x64;x20;x6f;x66;x66;x65;x72;x20;x79;x6f;x75;x20;x6f;
   x6e;x6c;x79;x20;x6f;x6e;x65;x20;x74;x69;x70;x20;x66;x6f;x72;x20;
   x74;x68;x65;x20;x66;x75;x74;x75;x72;x65;x2c;x20;x73;x75;x6e;x73;
   x63;x72;x65;x65;x6e;x20;x77;x6f;x75;x6c;x64;x20;x62;x65;x20;x69;
   x74;x2e].
Definition rfc_cipher : list byte :=
  [x6e;x2e;x35;x9a;x25;x68;xf9;x80;x41;xba;x07;x28;xdd;x0d;x69;x81;
   xe9;x7e;x7a;xec;x1d;x43;x60;xc2;x0a;x27;xaf;xcc;xfd;x9f;xae;x0b;
   xf9;x1b;x65;xc5;x52;x47;x33;xab;x8f;x59;x3d;xab;xcd;x62;xb3;x57;
   x16;x39;xd6;x24;xe6;x51;x52;xab;x8f;x53;x0c;x35;x9f;x08;x61;xd8;
   x07;xca;x0d;xbf;x50;x0d;x6a;x61;x56;xa3;x8e;x08;x8a;x22;xb6;x5e;
   x52;xbc;x51;x4d;x16;xcc;xf8;x06;x81;x8c;xe9;x1a;xb7;x79;x37;x36;
   x5a;xf9;x0b;xbf;x74;xa3;x5b;xe6;xb4;x0b;x8e;xed;xf2;x78;x5e;x42;
   x87;x4d].

(** A key whose fourth byte has its high bit set, and a heap holding it at 1
    and a zero nonce at 2. *)
Definition high_key : list byte := [x00; x00; x00; x80] ++ replicate 28 x00.
Definition high_heap : gmap positive (list byte) :=
  <[2%positive := replicate 12 x00]> (<[1%positive := high_key]> ∅).

(** A heap holding the key at 1, the nonce at 2, the text at 3 and the
    reference ciphertext at 4. *)
Definition rfc_heap : gmap positive (list byte) :=
  <[4%positive := rfc_cipher]>
    (<[3%positive := rfc_text]>
       (<[2%positive := rfc_nonce]>
          (<[1%positive := rfc_key]> ∅))).

Definition rfc_engine : Chacha20 := initial rfc_key rfc_nonce (Some 1).

(** ** Definitions used in the further properties *)

(** The exclusive or of two bytes, as a number. *)
Definition byte_xor (a b : byte) : Z := Z.lxor (u8_to_Z a) (u8_to_Z b).

(** The shape an engine keeps: 16 state words, 64 keystream entries that
    are bytes, and a cursor of at most 64. *)
Definition well_formed (this : Chacha20) : Prop :=
  length (_param this) = 16%nat
  ∧ length (_keystream this) = 64%nat
  ∧ Forall (λ k, 0 <= k < 256) (_keystream this)
  ∧ (_byteCounter this <= 64)%nat.

(** The stream in the words of the specification (sections 3 and 4.3), on
    32-bit unsigned words.  The state: the constants, the key words, the
    counter, the nonce words. *)
Definition spec_state (key nonce : list byte) (counter : Z) : list Z :=
  [0x61707865; 0x3320646e; 0x79622d32; 0x6b206574]
  ++ (le_word_at key <$> seq 0 8)
  ++ [counter mod 2 ^ 32]
  ++ (le_word_at nonce <$> seq 0 3).

(** [n] successive keystream blocks: "regenerate the keystream block from
    the current state; increment the state's counter word (mod 2^32)". *)
Fixpoint spec_keystream (n : nat) (state : list Z) : list Z :=
  match n with
  | O => []
  | S n =>
      Spec.block state
      ++ spec_keystream n (<[12%nat := Spec.add32 (get state 12) 1]> state)
  end.

(** "output[i] = input[i] XOR keystream[cursor]" *)
Definition spec_xor (d : list byte) (keystream : list Z) : list byte :=
  zip_with (λ x k, u8_of_Z (Z.lxor (u8_to_Z x) k)) d keystream.

(** The ciphertext of [d] under a key, a nonce and an initial counter. *)
Definition spec_encrypt (key nonce : list byte) (counter : Z) (d : list byte)
  : list byte :=
  spec_xor d (spec_keystream (S (length d / 64)) (spec_state key nonce counter)).

(** The first 64 bytes of the test text, and a heap that also holds them
    at 5 and the rest of the text at 6. *)
Definition rfc_text_head : list byte := take 64 rfc_text.
Definition rfc_text_tail : list byte := drop 64 rfc_text.
Definition rfc_heap2 : gmap positive (list byte) :=
  <[6%positive := rfc_text_tail]> (<[5%positive := rfc_text_head]> rfc_heap).

(** * Proofs *)

(** ** The embedding on known values *)

(** Rounding to a binary64 number: exact up to [2^53], ties to even above. *)
Example fl_values :
  JS.fl (2 ^ 53) = 2 ^ 53
  ∧ JS.fl (2 ^ 53 + 1) = 2 ^ 53
  ∧ JS.fl (2 ^ 53 + 3) = 2 ^ 53 + 4
  ∧ JS.fl (- (2 ^ 53 + 1)) = - 2 ^ 53
  ∧ JS.fl (2 ^ 54 + 2) = 2 ^ 54
  ∧ JS.fl (2 ^ 54 + 6) = 2 ^ 54 + 8.
Proof. vm_compute. done. Qed.

(** The bitwise operators on signed and unsigned operands. *)
Example bitwise_values :
  JS.shl 0x80 24 = -2147483648
  ∧ JS.shr (-1) 0 = 4294967295
  ∧ JS.xor 4294967295 1 = -2
  ∧ JS.and (-1) 0xFF = 255
  ∧ _rotl 0x80000001 1 = 3
  ∧ JS.shl 1 32 = 1.
Proof. vm_compute. done. Qed.

(** Quarter round on the test vector of RFC 7539, section 2.1.1. *)
Example quarterround_rfc7539 :
  _quarterround [0x11111111; 0x01020304; 0x9b8d6f43; 0x01234567] 0 1 2 3
  = [0xea2a92f4; 0xcb1cf8ce; 0x4581472e; 0x5881c4bb].
Proof. vm_compute. reflexivity. Qed.

(** Block function on the test vector of RFC 7539, section 2.3.2. *)
Example chacha_rfc7539 :
  _keystream (_chacha {|
    _param := [0x61707865; 0x3320646e; 0x79622d32; 0x6b206574;
               0x03020100; 0x07060504; 0x0b0a0908; 0x0f0e0d0c;
               0x13121110; 0x17161514; 0x1b1a1918; 0x1f1e1d1c;
               0x00000001; 0x09000000; 0x4a000000; 0x00000000];
    _keystream := replicate 64 0;
    _byteCounter := 0 |})
  = [0x10; 0xf1; 0xe7; 0xe4; 0xd1; 0x3b; 0x59; 0x15;
     0x50; 0x0f; 0xdd; 0x1f; 0xa3; 0x20; 0x71; 0xc4;
     0xc7; 0xd1; 0xf4; 0xc7; 0x33; 0xc0; 0x68; 0x03;
     0x04; 0x22; 0xaa; 0x9a; 0xc3; 0xd4; 0x6c; 0x4e;
     0xd2; 0x82; 0x64; 0x46; 0x07; 0x9f; 0xaa; 0x09;
     0x14; 0xc2; 0xd7; 0x05; 0xd9; 0x8b; 0x02; 0xa2;
     0xb5; 0x12; 0x9c; 0xd1; 0xde; 0x16; 0x4e; 0xb9;
     0xcb; 0xd0; 0x83; 0xe8; 0xa2; 0x50; 0x3c; 0x4e].
Proof. vm_compute. reflexivity. Qed.

(** The block function of the specification on the same state. *)
Example spec_block_rfc7539 :
  Spec.block [0x61707865; 0x3320646e; 0x79622d32; 0x6b206574;
              0x03020100; 0x07060504; 0x0b0a0908; 0x0f0e0d0c;
              0x13121110; 0x17161514; 0x1b1a1918; 0x1f1e1d1c;
              0x00000001; 0x09000000; 0x4a000000; 0x00000000]
  = [0x10; 0xf1; 0xe7; 0xe4; 0xd1; 0x3b; 0x59; 0x15;
     0x50; 0x0f; 0xdd; 0x1f; 0xa3; 0x20; 0x71; 0xc4;
     0xc7; 0xd1; 0xf4; 0xc7; 0x33; 0xc0; 0x68; 0x03;
     0x04; 0x22; 0xaa; 0x9a; 0xc3; 0xd4; 0x6c; 0x4e;
     0xd2; 0x82; 0x64; 0x46; 0x07; 0x9f; 0xaa; 0x09;
     0x14; 0xc2; 0xd7; 0x05; 0xd9; 0x8b; 0x02; 0xa2;
     0xb5; 0x12; 0x9c; 0xd1; 0xde; 0x16; 0x4e; 0xb9;
     0xcb; 0xd0; 0x83; 0xe8; 0xa2; 0x50; 0x3c; 0x4e].
Proof. vm_compute. reflexivity. Qed.

(** Encryption of the text of RFC 7539, section 2.4.2, as in the test
    'First block and param should be equal to reference'. *)
Example encrypt_rfc7539 :
  constructor rfc_heap (VUint8Array 1) (VUint8Array 2) (Some 1) = Ok rfc_engine
  ∧ outcome (encrypt (VUint8Array 3) rfc_heap rfc_engine) = Ok rfc_cipher
  ∧ outcome (decrypt (VUint8Array 4) rfc_heap rfc_engine) = Ok rfc_text.
Proof. vm_compute. done. Qed.

(** ** The loop of [_update] *)

Section UpdateLoop.

Implicit Types (h : gmap positive (list byte)) (this : Chacha20) (d : list byte).

Lemma xor_stream_cons this x d :
  xor_stream this (x :: d)
  = (u8_of_Z (JS.xor (u8_to_Z x) (next_keystream (refill this)).1)
       :: (xor_stream (next_keystream (refill this)).2 d).1,
     (xor_stream (next_keystream (refill this)).2 d).2).
Proof.
  cbn [xor_stream]. destruct (next_keystream (refill this)) as [k this1].
  cbn [fst snd]. by destruct (xor_stream this1 d).
Qed.

Lemma xor_stream_length this d : length (xor_stream this d).1 = length d.
Proof.
  revert this. induction d as [|x d IH]; intros this; [done|].
  rewrite xor_stream_cons. cbn [fst length]. by rewrite IH.
Qed.

Lemma xor_stream_state this d : (xor_stream this d).2 = advance (length d) this.
Proof.
  revert this. induction d as [|x d IH]; intros this; [done|].
  rewrite xor_stream_cons. cbn [snd length advance]. by rewrite IH.
Qed.

Lemma read8_lookup h l d pre x suf :
  h !! l = Some d → d = pre ++ x :: suf → read8 h l (length pre) = u8_to_Z x.
Proof.
  intros Hl ->. unfold read8, get8. rewrite Hl. simpl.
  by rewrite list_lookup_middle.
Qed.

(** The loop from index [length pre] on, when the first [length pre] bytes
    of the output are written and the input is [pre ++ suf]. *)
Lemma update_loop_from data output h d suf :
  data ≠ output →
  ∀ pre opre this,
    d = pre ++ suf →
    length opre = length pre →
    h !! data = Some d →
    h !! output = Some (opre ++ replicate (length suf) x00) →
    foldl (update_body data output) (h, this) (seq (length pre) (length suf))
    = (<[output := opre ++ (xor_stream this suf).1]> h, (xor_stream this suf).2).
Proof.
  intros Hne. revert h. induction suf as [|x suf IH]; intros h pre opre this Hd Hlen Hdata Hout.
  - simpl in *. f_equal. by rewrite insert_id.
  - cbn [length seq foldl]. unfold update_body at 2.
    rewrite (read8_lookup h data d pre x suf Hdata Hd).
    rewrite xor_stream_cons.
    destruct (next_keystream (refill this)) as [k this1] eqn:Ek.
    cbn [fst snd].
    replace (S (length pre)) with (length (pre ++ [x]))
      by (rewrite length_app; cbn [length]; lia).
    rewrite (IH _ (pre ++ [x]) (opre ++ [u8_of_Z (JS.xor (u8_to_Z x) k)])).
    + f_equal. unfold write8.
      rewrite <- (assoc_L (++)). cbn [app].
      apply map_eq. intros j. destruct (decide (j = output)) as [->|Hj].
      * by rewrite !lookup_insert_eq.
      * by rewrite !lookup_insert_ne, lookup_alter_ne.
    + by rewrite Hd, <- (assoc_L (++)).
    + rewrite !length_app. cbn [length]. lia.
    + unfold write8. by rewrite lookup_alter_ne.
    + unfold write8. rewrite lookup_alter_eq, Hout. cbn [fmap option_fmap option_map]. f_equal.
      rewrite <- Hlen.
      rewrite insert_app_r_alt by lia. rewrite Nat.sub_diag.
      cbn [length replicate insert list_insert].
      by rewrite <- (assoc_L (++)).
Qed.

(** A call on a non-empty [Uint8Array]. *)
Lemma update_ok data h this d :
  h !! data = Some d → d ≠ [] →
  _update (VUint8Array data) h this
  = (Ok (VUint8Array (fresh (dom h))),
     <[fresh (dom h) := (xor_stream this d).1]> h,
     (xor_stream this d).2).
Proof.
  intros Hd Hne. unfold _update, instanceof_Uint8Array, length_of.
  cbn [as_Uint8Array]. rewrite Hd. cbn [from_option id].
  rewrite bool_decide_eq_true_2 by eauto.
  destruct d as [|x d']; [done|]. cbn [length Nat.eqb negb orb].
  unfold new_Uint8Array.
  set (output := fresh (dom h)).
  assert (Hfresh : h !! output = None).
  { apply not_elem_of_dom. apply is_fresh. }
  assert (Hdo : data ≠ output) by (intros ->; congruence).
  pose proof (update_loop_from data output
                (<[output := replicate (length (x :: d')) x00]> h)
                (x :: d') (x :: d') Hdo [] [] this) as Hloop.
  cbn [length app] in Hloop. cbn [length].
  rewrite Hloop; try done.
  - by rewrite insert_insert_eq.
  - by rewrite lookup_insert_ne.
  - by rewrite lookup_insert_eq.
Qed.

(** A call on anything else. *)
Lemma update_throw v h this :
  as_Uint8Array h v = None ∨ as_Uint8Array h v = Some [] →
  _update v h this = (Throw data_error, h, this).
Proof.
  intros Hv. unfold _update, instanceof_Uint8Array, length_of.
  destruct Hv as [Hv|Hv]; rewrite Hv.
  - rewrite bool_decide_eq_false_2 by (intros [? ?]; done). done.
  - rewrite bool_decide_eq_true_2 by eauto. done.
Qed.

(** Every call falls under one of the two lemmas. *)
Lemma update_cases v h this :
  (∃ data d, v = VUint8Array data ∧ h !! data = Some d ∧ d ≠ [] ∧
     _update v h this
     = (Ok (VUint8Array (fresh (dom h))),
        <[fresh (dom h) := (xor_stream this d).1]> h,
        (xor_stream this d).2))
  ∨ ((as_Uint8Array h v = None ∨ as_Uint8Array h v = Some []) ∧
     _update v h this = (Throw data_error, h, this)).
Proof.
  destruct (as_Uint8Array h v) as [d|] eqn:Hv.
  - destruct d as [|x d].
    + right. split; [by right|]. apply update_throw. by right.
    + left. destruct v; try done. cbn [as_Uint8Array] in Hv.
      eexists _, _. split; [done|]. split; [done|]. split; [done|].
      by apply update_ok.
  - right. split; [by left|]. apply update_throw. by left.
Qed.

End UpdateLoop.

(** ** Bytes and the exclusive or *)

Section Bytes.

Lemma u8_to_Z_range b : 0 <= u8_to_Z b < 256.
Proof.
  unfold u8_to_Z. pose proof (Byte.to_N_bounded b). lia.
Qed.

Lemma u8_to_of_Z z : u8_to_Z (u8_of_Z z) = z mod 256.
Proof.
  unfold u8_to_Z, u8_of_Z.
  pose proof (Z.mod_pos_bound z 256 eq_refl) as Hr.
  destruct (Byte.of_N (Z.to_N (z mod 256))) as [b|] eqn:E.
  - apply Byte.to_of_N in E. cbn [from_option id]. rewrite E. lia.
  - apply Byte.of_N_None_iff in E. lia.
Qed.

Lemma u8_of_to_Z b : u8_of_Z (u8_to_Z b) = b.
Proof.
  unfold u8_of_Z. rewrite Z.mod_small by apply u8_to_Z_range.
  unfold u8_to_Z. rewrite N2Z.id, Byte.of_to_N. done.
Qed.

Lemma ToInt32_mod x : JS.ToInt32 x mod 2 ^ 32 = x mod 2 ^ 32.
Proof.
  unfold JS.ToInt32. rewrite Zminus_mod_idemp_l. f_equal. lia.
Qed.

Lemma ToInt32_range x : - 2 ^ 31 <= JS.ToInt32 x < 2 ^ 31.
Proof.
  unfold JS.ToInt32. pose proof (Z.mod_pos_bound (x + 2 ^ 31) (2 ^ 32) eq_refl). lia.
Qed.

Lemma ToInt32_testbit x i : 0 <= i < 32 → Z.testbit (JS.ToInt32 x) i = Z.testbit x i.
Proof.
  intros Hi.
  rewrite <- (Z.mod_pow2_bits_low (JS.ToInt32 x) 32 i) by lia.
  rewrite ToInt32_mod. apply Z.mod_pow2_bits_low. lia.
Qed.

Lemma mod256_bits a b :
  (∀ i, 0 <= i < 8 → Z.testbit a i = Z.testbit b i) → a mod 256 = b mod 256.
Proof.
  intros H. apply Z.bits_inj'. intros n Hn.
  change 256 with (2 ^ 8).
  destruct (Z_lt_dec n 8).
  - rewrite !Z.mod_pow2_bits_low by lia. apply H. lia.
  - rewrite !Z.mod_pow2_bits_high by lia. done.
Qed.

(** Storing [d ^ k] in a [Uint8Array] and combining the stored byte with
    [k] again gives [d] back, whatever number [k] is. *)
Lemma xor_twice (b : byte) (k : Z) :
  u8_of_Z (JS.xor (u8_to_Z (u8_of_Z (JS.xor (u8_to_Z b) k))) k) = b.
Proof.
  rewrite <- (u8_of_to_Z b) at 2.
  unfold u8_of_Z at 1 3. do 3 f_equal.
  rewrite u8_to_of_Z. apply mod256_bits. intros i Hi.
  unfold JS.xor. rewrite Z.lxor_spec, !ToInt32_testbit by lia.
  change 256 with (2 ^ 8). rewrite Z.mod_pow2_bits_low by lia.
  rewrite Z.lxor_spec, !ToInt32_testbit by lia.
  by destruct (Z.testbit (u8_to_Z b) i), (Z.testbit k i).
Qed.

End Bytes.

(** ** The stream as a function of the data *)

Section Stream.

Implicit Types (this : Chacha20) (d : list byte).

(** Applying the loop to its own output, from the same engine state, gives
    the input back and ends in the same state. *)
Lemma xor_stream_involutive this d :
  xor_stream this (xor_stream this d).1 = (d, (xor_stream this d).2).
Proof.
  revert this. induction d as [|x d IH]; intros this; [done|].
  rewrite (xor_stream_cons this x d). cbn [fst snd].
  rewrite xor_stream_cons. rewrite IH. cbn [fst snd].
  by rewrite xor_twice.
Qed.

(** The state after the loop depends on the number of bytes only. *)
Lemma xor_stream_state_length this d1 d2 :
  length d1 = length d2 → (xor_stream this d1).2 = (xor_stream this d2).2.
Proof. intros H. by rewrite !xor_stream_state, H. Qed.

End Stream.

(** ** Construction *)

Section Construction.

Implicit Types (h : gmap positive (list byte)) (key nonce : value).

Lemma constructor_ok h key nonce counter k n :
  as_Uint8Array h key = Some k → length k = 32%nat →
  as_Uint8Array h nonce = Some n → length n = 12%nat →
  constructor h key nonce counter = Ok (initial k n counter).
Proof.
  intros Hk Hk32 Hn Hn12.
  unfold constructor, instanceof_Uint8Array, length_of.
  rewrite Hk, Hn. cbn [from_option id]. rewrite Hk32, Hn12.
  rewrite !bool_decide_eq_true_2 by eauto. cbn [negb orb Nat.eqb].
  unfold initial. do 3 f_equal.
  destruct counter as [c|]; [|done]. cbn [from_option id].
  by destruct (Z.eqb_spec c 0) as [->|].
Qed.

Lemma constructor_key_error h key nonce counter :
  ¬ (∃ k, as_Uint8Array h key = Some k ∧ length k = 32%nat) →
  constructor h key nonce counter = Throw key_error.
Proof.
  intros Hk. unfold constructor, instanceof_Uint8Array, length_of.
  destruct (as_Uint8Array h key) as [k|] eqn:E.
  - rewrite bool_decide_eq_true_2 by eauto. cbn [negb orb from_option id].
    destruct (Nat.eqb_spec (length k) 32); [|done].
    destruct Hk. eauto.
  - rewrite bool_decide_eq_false_2 by (intros [? ?]; done). done.
Qed.

Lemma constructor_nonce_error h key nonce counter k :
  as_Uint8Array h key = Some k → length k = 32%nat →
  ¬ (∃ n, as_Uint8Array h nonce = Some n ∧ length n = 12%nat) →
  constructor h key nonce counter = Throw nonce_error.
Proof.
  intros Hk Hk32 Hn. unfold constructor, instanceof_Uint8Array, length_of.
  rewrite Hk. cbn [from_option id]. rewrite Hk32.
  rewrite bool_decide_eq_true_2 by eauto. cbn [negb orb Nat.eqb].
  destruct (as_Uint8Array h nonce) as [n|] eqn:E.
  - rewrite bool_decide_eq_true_2 by eauto. cbn [negb orb from_option id].
    destruct (Nat.eqb_spec (length n) 12); [|done].
    destruct Hn. eauto.
  - rewrite bool_decide_eq_false_2 by (intros [? ?]; done). done.
Qed.

Lemma constructor_Ok_inv h key nonce counter E :
  constructor h key nonce counter = Ok E →
  ∃ k n, as_Uint8Array h key = Some k ∧ length k = 32%nat
         ∧ as_Uint8Array h nonce = Some n ∧ length n = 12%nat
         ∧ E = initial k n counter.
Proof.
  intros HE.
  destruct (as_Uint8Array h key) as [k|] eqn:Hk.
  - destruct (decide (length k = 32%nat)) as [Hk32|Hk32].
    + destruct (as_Uint8Array h nonce) as [n|] eqn:Hn.
      * destruct (decide (length n = 12%nat)) as [Hn12|Hn12].
        -- rewrite (constructor_ok h key nonce counter k n) in HE by done.
           exists k, n. by injection HE as <-.
        -- rewrite (constructor_nonce_error h key nonce counter k) in HE; [done..|].
           intros (n' & ? & ?). congruence.
      * rewrite (constructor_nonce_error h key nonce counter k) in HE; [done..|].
        intros (n' & ? & ?). congruence.
    + rewrite constructor_key_error in HE; [done|].
      intros (k' & ? & ?). congruence.
  - rewrite constructor_key_error in HE; [done|].
    intros (k' & ? & ?). congruence.
Qed.

Lemma valid_dec h v (len : nat) :
  Decision (∃ k, as_Uint8Array h v = Some k ∧ length k = len).
Proof.
  destruct (as_Uint8Array h v) as [k|].
  - destruct (decide (length k = len)).
    + left. eauto.
    + right. intros (k' & [= <-] & ?). done.
  - right. intros (k' & ? & ?). done.
Qed.

End Construction.

(** ** Sequences of calls *)

Section Calls.

Implicit Types (this : Chacha20) (c : call) (cs : list call)
  (p : list byte) (ps : list (list byte)).

Lemma invoke_update c this :
  invoke c this = _update (call_arg c) (call_heap c) this.
Proof. unfold invoke. by destruct (call_method c). Qed.

Lemma invoke_valid c this p :
  call_bytes c = Some p → p ≠ [] →
  outcome (invoke c this) = Ok (xor_stream this p).1
  ∧ (invoke c this).2 = (xor_stream this p).2.
Proof.
  intros Hp Hne. rewrite invoke_update. unfold call_bytes in Hp.
  destruct (call_arg c) as [| | | |l]; try done. cbn [as_Uint8Array] in Hp.
  rewrite (update_ok l _ this p Hp Hne).
  cbn [outcome snd as_Uint8Array]. by rewrite lookup_insert_eq.
Qed.

Lemma invoke_invalid c this :
  call_bytes c = None ∨ call_bytes c = Some [] →
  invoke c this = (Throw data_error, call_heap c, this).
Proof. intros H. rewrite invoke_update. by apply update_throw. Qed.

Lemma run_cons this c cs :
  run this (c :: cs)
  = (outcome (invoke c this) :: (run (invoke c this).2 cs).1,
     (run (invoke c this).2 cs).2).
Proof. cbn [run]. by destruct (run _ cs). Qed.

Lemma xor_chunks_cons this p ps :
  xor_chunks this (p :: ps)
  = ((xor_stream this p).1 :: (xor_chunks (xor_stream this p).2 ps).1,
     (xor_chunks (xor_stream this p).2 ps).2).
Proof. cbn [xor_chunks]. by destruct (xor_chunks _ ps). Qed.

(** A sequence of calls on non-empty [Uint8Array]s returns normally. *)
Lemma run_valid this cs ps :
  Forall2 (λ c p, call_bytes c = Some p ∧ p ≠ []) cs ps →
  run this cs = (Ok <$> (xor_chunks this ps).1, (xor_chunks this ps).2).
Proof.
  intros H. revert this. induction H as [|c p cs ps [Hp Hne] _ IH]; intros this; [done|].
  rewrite run_cons, xor_chunks_cons.
  destruct (invoke_valid c this p Hp Hne) as [-> ->].
  rewrite IH. done.
Qed.

Lemma xor_chunks_involutive this ps :
  xor_chunks this (xor_chunks this ps).1 = (ps, (xor_chunks this ps).2).
Proof.
  revert this. induction ps as [|p ps IH]; intros this; [done|].
  rewrite (xor_chunks_cons this p ps). cbn [fst snd].
  rewrite xor_chunks_cons, xor_stream_involutive. cbn [fst snd].
  by rewrite IH.
Qed.

Lemma xor_chunks_lengths this ps :
  Forall2 (λ p o, length o = length p) ps (xor_chunks this ps).1.
Proof.
  revert this. induction ps as [|p ps IH]; intros this; [constructor|].
  rewrite xor_chunks_cons. cbn [fst]. constructor; [|apply IH].
  apply xor_stream_length.
Qed.

Lemma xor_stream_nonempty this p : p ≠ [] → (xor_stream this p).1 ≠ [].
Proof.
  intros Hp Ho. apply Hp. apply length_zero_iff_nil.
  by rewrite <- (xor_stream_length this p), Ho.
Qed.

Lemma xor_chunks_nonempty this ps :
  Forall (λ p, p ≠ []) ps → Forall (λ o, o ≠ []) (xor_chunks this ps).1.
Proof.
  intros H. revert this. induction H as [|p ps Hp _ IH]; intros this; [constructor|].
  rewrite xor_chunks_cons. cbn [fst]. constructor; [|apply IH].
  by apply xor_stream_nonempty.
Qed.

(** The engine after a sequence of calls depends on the lengths only. *)
Lemma xor_chunks_state_lengths this ps1 ps2 :
  Forall2 (λ p1 p2, length p1 = length p2) ps1 ps2 →
  (xor_chunks this ps1).2 = (xor_chunks this ps2).2.
Proof.
  intros H. revert this. induction H as [|p1 p2 ps1 ps2 Hl _ IH]; intros this; [done|].
  rewrite !xor_chunks_cons. cbn [snd].
  rewrite (xor_stream_state_length this p1 p2 Hl). apply IH.
Qed.

End Calls.

(** ** Calls compared *)

Section Compare.

Implicit Types (this : Chacha20) (c : call) (cs : list call).

(** Construction reads the bytes of the key and of the nonce, and the
    counter, nothing else. *)
Lemma constructor_ext (h1 h2 : gmap positive (list byte)) key1 key2 nonce1 nonce2 counter :
  as_Uint8Array h1 key1 = as_Uint8Array h2 key2 →
  as_Uint8Array h1 nonce1 = as_Uint8Array h2 nonce2 →
  constructor h1 key1 nonce1 counter = constructor h2 key2 nonce2 counter.
Proof.
  intros Hk Hn. unfold constructor, instanceof_Uint8Array, length_of.
  by rewrite Hk, Hn.
Qed.

Lemma call_bytes_cases c :
  call_bytes c = None ∨ call_bytes c = Some []
  ∨ ∃ p, call_bytes c = Some p ∧ p ≠ [].
Proof.
  destruct (call_bytes c) as [[|x p]|]; [by right; left| |by left].
  right. right. by exists (x :: p).
Qed.

Lemma invoke_state_length c1 c2 this :
  length <$> call_bytes c1 = length <$> call_bytes c2 →
  (invoke c1 this).2 = (invoke c2 this).2.
Proof.
  intros H.
  destruct (call_bytes_cases c1) as [H1|[H1|(p1 & H1 & Hne1)]];
    destruct (call_bytes_cases c2) as [H2|[H2|(p2 & H2 & Hne2)]];
    rewrite H1, H2 in H; try done.
  - rewrite !invoke_invalid by auto. done.
  - rewrite !invoke_invalid by auto. done.
  - destruct p2; done.
  - destruct p1; done.
  - destruct (invoke_valid c1 this p1 H1 Hne1) as [_ ->].
    destruct (invoke_valid c2 this p2 H2 Hne2) as [_ ->].
    apply xor_stream_state_length. by injection H.
Qed.

Lemma invoke_outcome_bytes c1 c2 this :
  call_bytes c1 = call_bytes c2 →
  outcome (invoke c1 this) = outcome (invoke c2 this).
Proof.
  intros H.
  destruct (call_bytes_cases c1) as [H1|[H1|(p1 & H1 & Hne1)]].
  - rewrite !invoke_invalid by (rewrite <- ?H; auto). done.
  - rewrite !invoke_invalid by (rewrite <- ?H; auto). done.
  - destruct (invoke_valid c1 this p1 H1 Hne1) as [-> _].
    rewrite H in H1.
    destruct (invoke_valid c2 this p1 H1 Hne1) as [-> _]. done.
Qed.

Lemma run_state_lengths this cs1 cs2 :
  Forall2 (λ c1 c2, length <$> call_bytes c1 = length <$> call_bytes c2) cs1 cs2 →
  (run this cs1).2 = (run this cs2).2.
Proof.
  intros H. revert this. induction H as [|c1 c2 cs1 cs2 Hc _ IH]; intros this; [done|].
  rewrite !run_cons. cbn [snd].
  rewrite (invoke_state_length c1 c2 this Hc). apply IH.
Qed.

Lemma run_outcomes_bytes this cs1 cs2 :
  Forall2 (λ c1 c2, call_bytes c1 = call_bytes c2) cs1 cs2 →
  (run this cs1).1 = (run this cs2).1.
Proof.
  intros H. revert this. induction H as [|c1 c2 cs1 cs2 Hc _ IH]; intros this; [done|].
  rewrite !run_cons. cbn [fst].
  rewrite (invoke_outcome_bytes c1 c2 this Hc).
  rewrite (invoke_state_length c1 c2 this) by (by rewrite Hc).
  by rewrite IH.
Qed.

End Compare.

(** ** What the methods leave alone *)

Section Frame.

Implicit Types (this : Chacha20) (c : call) (cs : list call).

Lemma chacha_param this : _param (_chacha this) = _param this.
Proof.
  unfold _chacha. by destruct (foldl _ _ _) as [[? ?] ?].
Qed.

Lemma chacha_byteCounter this : _byteCounter (_chacha this) = _byteCounter this.
Proof.
  unfold _chacha. by destruct (foldl _ _ _) as [[? ?] ?].
Qed.

Lemma store_word_length param mix ks b i :
  length (store_word param (mix, ks, b) i).1.2 = length ks
  ∧ length (store_word param (mix, ks, b) i).1.1 = length mix.
Proof. unfold store_word. cbn [fst snd]. by rewrite !length_insert. Qed.

Lemma store_loop_length param is_ : ∀ st,
  length (foldl (store_word param) st is_).1.2 = length st.1.2
  ∧ length (foldl (store_word param) st is_).1.1 = length st.1.1.
Proof.
  induction is_ as [|i is_ IH]; intros [[mix ks] b]; [done|].
  cbn [foldl]. destruct (IH (store_word param (mix, ks, b) i)) as [-> ->].
  apply store_word_length.
Qed.

Lemma chacha_keystream_length this :
  length (_keystream (_chacha this)) = length (_keystream this).
Proof.
  unfold _chacha.
  match goal with |- context [foldl (store_word ?p) ?st ?l] =>
    pose proof (proj1 (store_loop_length p l st)) as H;
    destruct (foldl (store_word p) st l) as [[? ?] ?]
  end.
  exact H.
Qed.

Lemma refill_no_block this :
  _byteCounter this ≠ 0%nat → _byteCounter this ≠ 64%nat → refill this = this.
Proof.
  intros H0 H64. unfold refill.
  destruct (Nat.eqb_spec (_byteCounter this) 0); [done|].
  by destruct (Nat.eqb_spec (_byteCounter this) 64).
Qed.

Lemma refill_block this :
  _byteCounter this = 0%nat ∨ _byteCounter this = 64%nat →
  refill this
  = {| _param := <[12%nat := JS.add (get (_param this) 12) 1]> (_param this);
       _keystream := _keystream (_chacha this);
       _byteCounter := 0 |}.
Proof.
  intros H. rewrite <- (chacha_param this). unfold refill.
  generalize (_chacha this). intros c.
  assert (E : (_byteCounter this =? 0)%nat || (_byteCounter this =? 64)%nat = true).
  { apply orb_true_iff. rewrite !Nat.eqb_eq. done. }
  rewrite E. done.
Qed.

Lemma refill_cases this :
  refill this = this
  ∨ refill this
    = {| _param := <[12%nat := JS.add (get (_param this) 12) 1]> (_param this);
         _keystream := _keystream (_chacha this);
         _byteCounter := 0 |}.
Proof.
  destruct (decide (_byteCounter this = 0%nat)) as [H0|H0];
    [right; apply refill_block; by left|].
  destruct (decide (_byteCounter this = 64%nat)) as [H64|H64];
    [right; apply refill_block; by right|].
  left. by apply refill_no_block.
Qed.

Lemma same_but_counter_refl p : same_but_counter p p.
Proof. by split. Qed.

Lemma same_but_counter_trans p q r :
  same_but_counter p q → same_but_counter q r → same_but_counter p r.
Proof.
  intros [Hl1 H1] [Hl2 H2]. split; [congruence|].
  intros i Hi. by rewrite H2, H1.
Qed.

Lemma refill_frame this : same_but_counter (_param this) (_param (refill this)).
Proof.
  destruct (refill_cases this) as [->| ->]; [apply same_but_counter_refl|].
  cbn [_param]. split; [apply length_insert|].
  intros i Hi. by apply list_lookup_insert_ne.
Qed.

Lemma advance_frame n : ∀ this,
  same_but_counter (_param this) (_param (advance n this)).
Proof.
  induction n as [|n IH]; intros this; [apply same_but_counter_refl|].
  cbn [advance]. eapply same_but_counter_trans; [|apply IH].
  unfold next_keystream. cbn [snd _param]. apply refill_frame.
Qed.

(** The engine after a call is the engine advanced by some number of
    bytes: none when the call throws. *)
Lemma invoke_advance c this :
  (invoke c this).2
  = advance (match call_bytes c with Some p => length p | None => 0 end) this.
Proof.
  destruct (call_bytes_cases c) as [H|[H|(p & H & Hne)]]; rewrite H.
  - rewrite invoke_invalid by auto. done.
  - rewrite invoke_invalid by auto. done.
  - destruct (invoke_valid c this p H Hne) as [_ ->]. apply xor_stream_state.
Qed.

Lemma run_frame cs : ∀ this,
  same_but_counter (_param this) (_param (run this cs).2).
Proof.
  induction cs as [|c cs IH]; intros this; [apply same_but_counter_refl|].
  rewrite run_cons. cbn [snd].
  eapply same_but_counter_trans; [|apply IH].
  rewrite invoke_advance. apply advance_frame.
Qed.

End Frame.

(** ** The counter word *)

Section Counter.

Implicit Types (this : Chacha20).

Lemma fl_small z : Z.abs z <= 2 ^ 53 → JS.fl z = z.
Proof.
  intros H. unfold JS.fl. by destruct (Z.leb_spec (Z.abs z) (2 ^ 53)); [|lia].
Qed.

Lemma get_insert_eq (l : list Z) (i : nat) (v : Z) :
  (i < length l)%nat → get (<[i := v]> l) i = v.
Proof. intros H. unfold get. by rewrite list_lookup_insert_eq. Qed.

Lemma get_insert_ne (l : list Z) (i j : nat) (v : Z) :
  i ≠ j → get (<[i := v]> l) j = get l j.
Proof. intros H. unfold get. by rewrite list_lookup_insert_ne. Qed.

(** One byte further. *)
Lemma step_counter this :
  (12 < length (_param this))%nat →
  (1 <= position this <= 64)%nat →
  0 <= get (_param this) 12 →
  (position this = 64%nat → get (_param this) 12 < 2 ^ 53) →
  let this' := (next_keystream (refill this)).2 in
  length (_param this') = length (_param this)
  ∧ (position this = 64%nat →
     position this' = 1%nat
     ∧ get (_param this') 12 = get (_param this) 12 + 1)
  ∧ (position this ≠ 64%nat →
     position this' = S (position this)
     ∧ get (_param this') 12 = get (_param this) 12).
Proof.
  intros Hlen Hpos Hc Hc'. unfold position in *. cbn zeta.
  unfold next_keystream. cbn [snd _param _byteCounter].
  destruct (Nat.eqb_spec (_byteCounter this) 0) as [H0|H0].
  - rewrite refill_block by auto. cbn [_param _byteCounter Nat.eqb].
    rewrite length_insert. split; [done|]. split; [|done].
    intros _. split; [done|]. specialize (Hc' eq_refl).
    rewrite get_insert_eq by done. unfold JS.add. apply fl_small. lia.
  - destruct (decide (_byteCounter this = 64%nat)) as [H64|H64].
    + rewrite refill_block by auto. cbn [_param _byteCounter Nat.eqb].
      rewrite length_insert. split; [done|]. split; [|done].
      intros _. split; [done|]. specialize (Hc' H64).
      rewrite get_insert_eq by done. unfold JS.add. apply fl_small. lia.
    + rewrite refill_no_block by done. split; [done|]. split; [done|].
      intros _. cbn [Nat.eqb]. done.
Qed.

(** [n] bytes further: the counter word has grown by the number of blocks
    generated, and has not wrapped. *)
Lemma advance_counter n : ∀ this,
  (12 < length (_param this))%nat →
  (1 <= position this <= 64)%nat →
  0 <= get (_param this) 12 →
  get (_param this) 12 + (Z.of_nat (position this) + Z.of_nat n - 1) / 64 <= 2 ^ 53 →
  get (_param (advance n this)) 12
  = get (_param this) 12 + (Z.of_nat (position this) + Z.of_nat n - 1) / 64.
Proof.
  induction n as [|n IH]; intros this Hlen Hpos Hc Hmax.
  - cbn [advance]. rewrite Z.div_small; lia.
  - cbn [advance].
    assert (Hc' : position this = 64%nat → get (_param this) 12 < 2 ^ 53).
    { intros E. rewrite E in Hmax. revert Hmax. div_lia. }
    destruct (step_counter this Hlen Hpos Hc Hc') as (Hl & H64 & Hlt).
    destruct (decide (position this = 64%nat)) as [E|E].
    + destruct (H64 E) as [Hp Hw].
      rewrite E in *. rewrite IH; rewrite ?Hl, ?Hp, ?Hw; try lia.
      all: revert Hmax; div_lia.
    + destruct (Hlt E) as [Hp Hw].
      rewrite IH; rewrite ?Hl, ?Hp, ?Hw; try lia.
      all: revert Hmax; div_lia.
Qed.

(** After one call on [d] bytes, on an engine that stands at a block
    boundary. *)
Lemma invoke_counter m h data d this :
  h !! data = Some d → d ≠ [] →
  (12 < length (_param this))%nat →
  position this = 64%nat →
  0 <= get (_param this) 12 →
  get (_param this) 12 + (Z.of_nat (length d) + 63) / 64 <= 2 ^ 53 →
  get (_param (invoke (mkCall m h (VUint8Array data)) this).2) 12
  = get (_param this) 12 + (Z.of_nat (length d) + 63) / 64.
Proof.
  intros Hd Hne Hlen Hpos Hc Hmax.
  destruct (invoke_valid (mkCall m h (VUint8Array data)) this d Hd Hne) as [_ ->].
  rewrite xor_stream_state, advance_counter; rewrite ?Hpos; try lia.
  - do 2 f_equal. lia.
  - replace (Z.of_nat 64 + Z.of_nat (length d) - 1) with (Z.of_nat (length d) + 63) by lia.
    done.
Qed.

Lemma initial_counter key nonce counter :
  length (_param (initial key nonce counter)) = 16%nat
  ∧ position (initial key nonce counter) = 64%nat
  ∧ get (_param (initial key nonce counter)) 12 = default 0 counter.
Proof. done. Qed.

End Counter.

(** ** 32-bit words *)

Section Words.

Lemma nonneg_high_bits z i : 0 <= z < 2 ^ 31 → 31 <= i → Z.testbit z i = false.
Proof.
  intros Hz Hi. rewrite <- (Z.mod_small z (2 ^ 31)) by lia.
  apply Z.mod_pow2_bits_high. lia.
Qed.

Lemma high_bits_small z :
  (∀ i, 31 <= i → Z.testbit z i = false) → 0 <= z < 2 ^ 31.
Proof.
  intros H.
  assert (Hn : 0 <= z).
  { apply Z.bits_iff_nonneg_ex. exists 31. intros m Hm. apply H. lia. }
  assert (E : z mod 2 ^ 31 = z).
  { apply Z.bits_inj'. intros n Hn'. destruct (Z_lt_dec n 31).
    - apply Z.mod_pow2_bits_low. lia.
    - rewrite Z.mod_pow2_bits_high by lia. symmetry. apply H. lia. }
  pose proof (Z.mod_pos_bound z (2 ^ 31) eq_refl). lia.
Qed.

Lemma int32_sign_extended z : int32 z ↔ sign_extended z.
Proof.
  unfold int32, sign_extended. split.
  - intros Hz i Hi. destruct (Z_lt_dec z 0) as [Hneg|Hpos].
    + assert (Hl : 0 <= Z.lnot z < 2 ^ 31) by (unfold Z.lnot; lia).
      assert (Hb : ∀ j, 31 <= j → Z.testbit z j = true).
      { intros j Hj. rewrite <- (Z.lnot_involutive z) at 1.
        rewrite Z.lnot_spec, (nonneg_high_bits (Z.lnot z)) by lia. done. }
      rewrite !Hb by lia. done.
    + rewrite !(nonneg_high_bits z) by lia. done.
  - intros H. destruct (Z.testbit z 31) eqn:E.
    + assert (Hl : 0 <= Z.lnot z < 2 ^ 31).
      { apply high_bits_small. intros i Hi.
        rewrite Z.lnot_spec, H by lia. done. }
      unfold Z.lnot in Hl. lia.
    + assert (0 <= z < 2 ^ 31); [|lia].
      apply high_bits_small. intros i Hi. by rewrite H.
Qed.

Lemma ToInt32_int32 x : int32 (JS.ToInt32 x).
Proof. apply ToInt32_range. Qed.

Lemma ToInt32_id z : int32 z → JS.ToInt32 z = z.
Proof.
  unfold int32, JS.ToInt32. intros H. rewrite Z.mod_small; lia.
Qed.

(** The results of [^] and [|] are signed 32-bit integers. *)
Lemma xor_int32 x y : int32 (JS.xor x y).
Proof.
  apply int32_sign_extended. intros i Hi. unfold JS.xor.
  rewrite !Z.lxor_spec.
  rewrite (proj1 (int32_sign_extended _) (ToInt32_int32 x) i Hi).
  rewrite (proj1 (int32_sign_extended _) (ToInt32_int32 y) i Hi). done.
Qed.

Lemma or_int32 x y : int32 (JS.or x y).
Proof.
  apply int32_sign_extended. intros i Hi. unfold JS.or.
  rewrite !Z.lor_spec.
  rewrite (proj1 (int32_sign_extended _) (ToInt32_int32 x) i Hi).
  rewrite (proj1 (int32_sign_extended _) (ToInt32_int32 y) i Hi). done.
Qed.

Lemma rotl_int32 x s : int32 (_rotl x s).
Proof. apply or_int32. Qed.

Lemma ToUint32_range x : 0 <= JS.ToUint32 x < 2 ^ 32.
Proof. apply Z.mod_pos_bound. done. Qed.

Lemma ToUint32_idemp x : JS.ToUint32 (JS.ToUint32 x) = JS.ToUint32 x.
Proof. unfold JS.ToUint32. apply Z.mod_mod. done. Qed.

Lemma ToUint32_testbit x i :
  0 <= i → Z.testbit (JS.ToUint32 x) i = if decide (i < 32) then Z.testbit x i else false.
Proof.
  intros Hi. unfold JS.ToUint32. case_decide.
  - apply Z.mod_pow2_bits_low. lia.
  - apply Z.mod_pow2_bits_high. lia.
Qed.

(** Two numbers with the same 32 low bits have the same [ToUint32]. *)
Lemma ToUint32_bits x y :
  (∀ i, 0 <= i < 32 → Z.testbit x i = Z.testbit y i) →
  JS.ToUint32 x = JS.ToUint32 y.
Proof.
  intros H. apply Z.bits_inj'. intros i Hi.
  rewrite !ToUint32_testbit by done. case_decide; [|done]. apply H. lia.
Qed.

Lemma shr_0 x : JS.shr x 0 = JS.ToUint32 x.
Proof. unfold JS.shr. apply Z.shiftr_0_r. Qed.

(** [+] on numbers whose sum is a safe integer is addition modulo 2^32 on
    their 32-bit words. *)
Lemma ToUint32_add x y :
  Z.abs (x + y) <= 2 ^ 53 →
  JS.ToUint32 (JS.add x y) = Spec.add32 (JS.ToUint32 x) (JS.ToUint32 y).
Proof.
  intros H. unfold JS.add, Spec.add32, JS.ToUint32.
  rewrite fl_small by done. apply Z.add_mod. done.
Qed.

Lemma ToUint32_xor x y :
  JS.ToUint32 (JS.xor x y) = Z.lxor (JS.ToUint32 x) (JS.ToUint32 y).
Proof.
  apply Z.bits_inj'. intros i Hi. unfold JS.xor.
  rewrite Z.lxor_spec, !ToUint32_testbit by done. case_decide; [|done].
  rewrite Z.lxor_spec, !ToInt32_testbit by lia. done.
Qed.

Lemma shift_count s : 0 <= s < 32 → JS.ToUint32 s mod 32 = s.
Proof.
  intros H. unfold JS.ToUint32.
  rewrite (Z.mod_small s (2 ^ 32)) by lia. apply Z.mod_small. lia.
Qed.

Lemma ToUint32_rotl x s :
  0 < s < 32 →
  JS.ToUint32 (_rotl x s) = Spec.rotl32 (JS.ToUint32 x) s.
Proof.
  intros Hs. unfold _rotl, Spec.rotl32, JS.or, JS.shl, JS.shr, JS.sub.
  rewrite fl_small by lia. rewrite !shift_count by lia.
  change (?a mod 2 ^ 32) with (JS.ToUint32 a).
  apply ToUint32_bits. intros i Hi.
  rewrite !Z.lor_spec, !ToInt32_testbit by lia.
  rewrite !Z.shiftl_spec, !Z.shiftr_spec by lia.
  rewrite !ToUint32_testbit by lia.
  destruct (Z_lt_dec i s) as [Hlt|Hge].
  - rewrite !(Z.testbit_neg_r _ (i - s)) by lia. done.
  - rewrite (ToUint32_testbit x (i - s)) by lia.
    destruct (decide (i - s < 32)); [|lia]. rewrite ToInt32_testbit by lia. done.
Qed.

(** The bytes stored by [_chacha] for one word. *)
Lemma and_FF_shr v k :
  0 <= k < 4 →
  JS.and (JS.shr v (8 * k)) 0xFF = (JS.ToUint32 v / 2 ^ (8 * k)) mod 256.
Proof.
  intros Hk. unfold JS.and, JS.shr. rewrite shift_count by lia.
  rewrite (ToInt32_id 255) by (unfold int32; lia).
  rewrite <- Z.shiftr_div_pow2 by lia.
  change 255 with (Z.ones 8). rewrite Z.land_ones by lia.
  change (2 ^ 8) with 256. apply mod256_bits. intros i Hi.
  apply ToInt32_testbit. lia.
Qed.

Lemma and_FF v : JS.and v 0xFF = JS.ToUint32 v mod 256.
Proof.
  unfold JS.and. rewrite (ToInt32_id 255) by (unfold int32; lia).
  change 255 with (Z.ones 8). rewrite Z.land_ones by lia.
  change (2 ^ 8) with 256. apply mod256_bits. intros i Hi.
  rewrite ToInt32_testbit, ToUint32_testbit by lia. by case_decide; [|lia].
Qed.

End Words.

(** ** The block function *)

Section Block.

Implicit Types (o w mix param : list Z) (i j x y z a b c d : nat) (K s : Z).

Lemma get_fmap_ToUint32 o i : get (JS.ToUint32 <$> o) i = JS.ToUint32 (get o i).
Proof.
  unfold get. rewrite list_lookup_fmap. by destruct (o !! i).
Qed.

Lemma get_ge o i : (length o <= i)%nat → get o i = 0.
Proof. intros H. unfold get. by rewrite lookup_ge_None_2. Qed.

Lemma bounded_get K o i : 0 <= K → bounded K o → Z.abs (get o i) <= K.
Proof.
  intros HK Hb. unfold get. destruct (o !! i) as [v|] eqn:E; [|simpl; lia].
  exact (proj1 (Forall_lookup _ _) Hb i v E).
Qed.

Lemma bounded_insert K o i v : bounded K o → Z.abs v <= K → bounded K (<[i := v]> o).
Proof. intros Hb Hv. by apply Forall_insert. Qed.

Lemma bounded_mono K K' o : K <= K' → bounded K o → bounded K' o.
Proof. intros HK Hb. eapply Forall_impl; [exact Hb|]. intros v Hv. cbn in *. lia. Qed.

Lemma int32_abs v : int32 v → Z.abs v <= 2 ^ 31.
Proof. unfold int32. lia. Qed.

(** *** One line of the quarter round *)

Lemma qr_line_length o x y z s : length (qr_line o x y z s) = length o.
Proof. unfold qr_line. by rewrite !length_insert. Qed.

Lemma qr_line_get o x y z s j :
  j ≠ x → j ≠ y → get (qr_line o x y z s) j = get o j.
Proof.
  intros Hx Hy. unfold qr_line. by rewrite !get_insert_ne.
Qed.

Lemma qr_line_bounded K o x y z s :
  2 ^ 31 <= K → 2 * K <= 2 ^ 53 → bounded K o →
  bounded (2 * K) (qr_line o x y z s).
Proof.
  intros HK1 HK2 Hb. unfold qr_line.
  pose proof (bounded_get K o y ltac:(lia) Hb).
  pose proof (bounded_get K o z ltac:(lia) Hb).
  apply bounded_insert; [apply bounded_insert|].
  - eapply bounded_mono; [|exact Hb]. lia.
  - unfold JS.add. rewrite fl_small; lia.
  - pose proof (int32_abs _ (rotl_int32
      (JS.xor (get o x) (JS.add (get o y) (get o z))) s)). lia.
Qed.

(** Writing [f] of the word just written at [x]. *)
Lemma insert_get_insert (f : Z → Z) w x v :
  f 0 = 0 → <[x := f (get (<[x := v]> w) x)]> (<[x := v]> w) = <[x := f v]> w.
Proof.
  intros Hf. destruct (decide (x < length w)%nat) as [Hlt|Hge].
  - rewrite get_insert_eq by done. apply list_insert_insert_eq.
  - rewrite !list_insert_ge by (rewrite ?length_insert; lia). done.
Qed.

Lemma rotl32_0 s : 0 < s < 32 → Spec.rotl32 0 s = 0.
Proof.
  intros Hs. unfold Spec.rotl32. by rewrite Z.shiftl_0_l, Z.shiftr_0_l.
Qed.

Lemma qr_line_sim K o x y z s :
  x ≠ y → (y < length o)%nat → 0 < s < 32 → 0 <= K → 2 * K <= 2 ^ 53 →
  bounded K o →
  JS.ToUint32 <$> qr_line o x y z s = spec_line (JS.ToUint32 <$> o) x y z s.
Proof.
  intros Hxy Hy Hs HK0 HK Hb. unfold qr_line, spec_line.
  pose proof (bounded_get K o y HK0 Hb).
  pose proof (bounded_get K o z HK0 Hb).
  rewrite (insert_get_insert (λ v, Spec.rotl32 v s)) by (by apply rotl32_0).
  rewrite !list_fmap_insert, ToUint32_rotl, ToUint32_xor by done.
  rewrite ToUint32_add by lia.
  rewrite (get_insert_ne _ y x) by done.
  rewrite (get_insert_eq _ y) by (by rewrite length_fmap).
  rewrite !get_fmap_ToUint32. done.
Qed.

(** *** Normalising a word *)

Lemma to_uint32_at_length o i : length (to_uint32_at o i) = length o.
Proof. unfold to_uint32_at. by rewrite length_insert. Qed.

Lemma to_uint32_at_get o i j :
  get (to_uint32_at o i) j = if decide (j = i) then JS.ToUint32 (get o j) else get o j.
Proof.
  unfold to_uint32_at. case_decide as E.
  - subst j. rewrite shr_0. destruct (decide (i < length o)%nat).
    + by rewrite get_insert_eq.
    + rewrite list_insert_ge by lia. by rewrite get_ge by lia.
  - by rewrite get_insert_ne.
Qed.

Lemma to_uint32_at_sim o i : JS.ToUint32 <$> to_uint32_at o i = JS.ToUint32 <$> o.
Proof.
  unfold to_uint32_at. rewrite list_fmap_insert, shr_0, ToUint32_idemp.
  rewrite <- get_fmap_ToUint32. unfold get.
  destruct ((JS.ToUint32 <$> o) !! i) as [v|] eqn:E.
  - by apply list_insert_id.
  - apply list_insert_ge. by apply lookup_ge_None.
Qed.

(** *** The quarter round *)

Lemma bounded_of_get K o : (∀ j, Z.abs (get o j) <= K) → bounded K o.
Proof.
  intros H. apply Forall_lookup. intros j v E.
  specialize (H j). unfold get in H. by rewrite E in H.
Qed.

Lemma quarterround_length o a b c d : length (_quarterround o a b c d) = length o.
Proof.
  unfold _quarterround. by rewrite !to_uint32_at_length, !qr_line_length.
Qed.

Lemma spec_quarter_round_lines w a b c d :
  Spec.quarter_round w a b c d
  = spec_line (spec_line (spec_line (spec_line w d a b 16) b c d 12) d a b 8) b c d 7.
Proof. reflexivity. Qed.

Lemma quarterround_sim K o a b c d :
  d ≠ a → b ≠ c → (a < length o)%nat → (c < length o)%nat →
  2 ^ 31 <= K → 16 * K <= 2 ^ 53 → bounded K o →
  JS.ToUint32 <$> _quarterround o a b c d
  = Spec.quarter_round (JS.ToUint32 <$> o) a b c d.
Proof.
  intros Hda Hbc Ha Hc HK1 HK2 Hb. unfold _quarterround.
  rewrite !to_uint32_at_sim, spec_quarter_round_lines.
  pose proof (qr_line_bounded K o d a b 16 ltac:(lia) ltac:(lia) Hb) as Hb1.
  pose proof (qr_line_bounded (2 * K) _ b c d 12 ltac:(lia) ltac:(lia) Hb1) as Hb2.
  pose proof (qr_line_bounded (2 * (2 * K)) _ d a b 8 ltac:(lia) ltac:(lia) Hb2) as Hb3.
  rewrite (qr_line_sim (2 * (2 * (2 * K)))) by (rewrite ?qr_line_length; done || lia).
  rewrite (qr_line_sim (2 * (2 * K))) by (rewrite ?qr_line_length; done || lia).
  rewrite (qr_line_sim (2 * K)) by (rewrite ?qr_line_length; done || lia).
  rewrite (qr_line_sim K) by (done || lia).
  done.
Qed.

(** A word of the result is the word of the argument or a 32-bit
    unsigned word. *)
Lemma quarterround_get o a b c d j :
  get (_quarterround o a b c d) j = get o j
  ∨ 0 <= get (_quarterround o a b c d) j < 2 ^ 32.
Proof.
  unfold _quarterround. rewrite !to_uint32_at_get.
  destruct (decide (j = a ∨ j = b ∨ j = c ∨ j = d)) as [Hin|Hout].
  - right. repeat case_decide; rewrite ?ToUint32_idemp;
      try apply ToUint32_range. exfalso. tauto.
  - left. repeat case_decide; try (exfalso; tauto).
    rewrite !qr_line_get by tauto. done.
Qed.

Lemma quarterround_bounded K o a b c d :
  2 ^ 32 <= K → bounded K o → bounded K (_quarterround o a b c d).
Proof.
  intros HK Hb. apply bounded_of_get. intros j.
  destruct (quarterround_get o a b c d j) as [-> | Hu]; [|lia].
  apply bounded_get; [lia|done].
Qed.

(** *** The double round and the round loop *)

Lemma double_round_length o : length (double_round o) = length o.
Proof. unfold double_round. by rewrite !quarterround_length. Qed.

Lemma double_round_bounded K o :
  2 ^ 32 <= K → bounded K o → bounded K (double_round o).
Proof.
  intros HK Hb. unfold double_round.
  repeat (apply quarterround_bounded; [done|]). done.
Qed.

Lemma double_round_sim K o :
  length o = 16%nat → 2 ^ 32 <= K → 16 * K <= 2 ^ 53 → bounded K o →
  JS.ToUint32 <$> double_round o = Spec.double_round (JS.ToUint32 <$> o).
Proof.
  intros Hlen HK1 HK2 Hb. unfold double_round, Spec.double_round.
  repeat (rewrite (quarterround_sim K);
          [|done|done|rewrite ?quarterround_length; lia
           |rewrite ?quarterround_length; lia|lia|lia|
           repeat (apply quarterround_bounded; [done|]); done]).
  done.
Qed.

(** The round loop runs its body [k] times when [i + 2 k = 20]. *)
Lemma mix_rounds_from (k : nat) : ∀ (fuel : nat) (i : Z) mix,
  (k <= fuel)%nat → 0 <= i → i + 2 * Z.of_nat k = _rounds →
  mix_rounds fuel i mix = Nat.iter k double_round mix.
Proof.
  unfold _rounds. induction k as [|k IH]; intros fuel i mix Hfuel Hi Hk.
  - assert (i = 20) as -> by lia. by destruct fuel.
  - destruct fuel as [|fuel]; [lia|]. cbn [mix_rounds]. unfold _rounds.
    destruct (Z.ltb_spec i 20); [|lia].
    unfold JS.add. rewrite fl_small by lia.
    rewrite IH by lia. by rewrite Nat.iter_succ_r.
Qed.

Lemma mix_rounds_iter mix : mix_rounds 20 0 mix = Nat.iter 10 double_round mix.
Proof. apply mix_rounds_from; [lia|lia|done]. Qed.

Lemma iter_double_round_length (n : nat) o :
  length (Nat.iter n double_round o) = length o.
Proof.
  induction n as [|n IH]; [done|].
  by rewrite Nat.iter_succ, double_round_length.
Qed.

Lemma iter_double_round_sim K (n : nat) o :
  length o = 16%nat → 2 ^ 32 <= K → 16 * K <= 2 ^ 53 → bounded K o →
  JS.ToUint32 <$> Nat.iter n double_round o
  = Nat.iter n Spec.double_round (JS.ToUint32 <$> o)
  ∧ bounded K (Nat.iter n double_round o).
Proof.
  intros Hlen HK1 HK2 Hb. induction n as [|n (IH1 & IH2)]; [done|].
  rewrite !Nat.iter_succ. split.
  - rewrite (double_round_sim K), IH1; try done.
    by rewrite iter_double_round_length.
  - by apply double_round_bounded.
Qed.

(** *** The loops around the rounds *)

Lemma copy_param param :
  length param = 16%nat →
  foldl (λ mix i, <[i := get param i]> mix) (replicate 16 0) (seq 0 16) = param.
Proof.
  intros H. do 16 (destruct param as [|? param]; [done|]).
  destruct param; [|done]. reflexivity.
Qed.

Lemma store_word_app param mix pre k0 k1 k2 k3 ks i :
  (i < length mix)%nat →
  store_word param (mix, pre ++ k0 :: k1 :: k2 :: k3 :: ks, length pre) i
  = (<[i := JS.add (get mix i) (get param i)]> mix,
     (pre ++ js_bytes (JS.add (get mix i) (get param i))) ++ ks,
     length (pre ++ js_bytes (JS.add (get mix i) (get param i)))).
Proof.
  intros Hi. unfold store_word. rewrite get_insert_eq by done.
  set (v := JS.add (get mix i) (get param i)).
  f_equal; [f_equal|].
  - rewrite <- (assoc_L (++)). unfold js_bytes. cbn [app].
    rewrite (insert_app_r_alt pre _ (length pre)) by lia.
    rewrite Nat.sub_diag. cbn [insert list_insert].
    rewrite (insert_app_r_alt pre _ (S (length pre))) by lia.
    replace (S (length pre) - length pre)%nat with 1%nat by lia.
    cbn [insert list_insert].
    rewrite (insert_app_r_alt pre _ (S (S (length pre)))) by lia.
    replace (S (S (length pre)) - length pre)%nat with 2%nat by lia.
    cbn [insert list_insert].
    rewrite (insert_app_r_alt pre _ (S (S (S (length pre))))) by lia.
    replace (S (S (S (length pre))) - length pre)%nat with 3%nat by lia.
    cbn [insert list_insert]. done.
  - rewrite length_app. unfold js_bytes. cbn [length]. lia.
Qed.

Lemma store_loop param mix0 : ∀ (n i : nat) mix pre ks,
  (i + n <= length mix)%nat →
  (∀ j, (i <= j)%nat → get mix j = get mix0 j) →
  length ks = (4 * n)%nat →
  (foldl (store_word param) (mix, pre ++ ks, length pre) (seq i n)).1.2
  = pre ++ concat ((λ j, js_bytes (JS.add (get mix0 j) (get param j))) <$> seq i n).
Proof.
  induction n as [|n IH]; intros i mix pre ks Hlen Hmix Hks.
  - destruct ks; [|done]. done.
  - do 4 (destruct ks as [|? ks]; [cbn [length] in Hks; lia|]).
    cbn [seq foldl]. rewrite store_word_app by lia.
    rewrite IH.
    + cbn [fmap list_fmap concat]. rewrite (Hmix i) by lia.
      by rewrite <- !(assoc_L (++)).
    + rewrite length_insert. lia.
    + intros j Hj. rewrite get_insert_ne by lia. apply Hmix. lia.
    + cbn [length] in Hks. lia.
Qed.

(** [_chacha] in one equation. *)
Lemma chacha_keystream this :
  length (_param this) = 16%nat → length (_keystream this) = 64%nat →
  _keystream (_chacha this)
  = concat ((λ j, js_bytes (JS.add (get (Nat.iter 10 double_round (_param this)) j)
                                   (get (_param this) j)))
              <$> seq 0 16).
Proof.
  intros Hp Hk. unfold _chacha. rewrite copy_param, mix_rounds_iter by done.
  pose proof (store_loop (_param this) (Nat.iter 10 double_round (_param this))
                16 0 (Nat.iter 10 double_round (_param this)) [] (_keystream this)) as H.
  cbn [app length] in H.
  destruct (foldl _ _ _) as [[mix ks] b]. cbn [_keystream]. cbn [fst snd] in H.
  apply H; [|done|done].
  rewrite iter_double_round_length. lia.
Qed.

Lemma zip_with_16 (f : Z → Z → Z) (l1 l2 : list Z) :
  length l1 = 16%nat → length l2 = 16%nat →
  zip_with f l1 l2 = (λ j, f (get l1 j) (get l2 j)) <$> seq 0 16.
Proof.
  intros H1 H2.
  do 16 (destruct l1 as [|? l1]; [done|]). destruct l1; [|done].
  do 16 (destruct l2 as [|? l2]; [done|]). destruct l2; [|done].
  reflexivity.
Qed.

(** The four numbers stored for a sum are the little-endian bytes of the
    sum modulo 2^32. *)
Lemma js_bytes_le m p :
  Z.abs (m + p) <= 2 ^ 53 →
  js_bytes (JS.add m p) = Spec.le_bytes (Spec.add32 (JS.ToUint32 m) (JS.ToUint32 p)).
Proof.
  intros H. unfold js_bytes, Spec.le_bytes.
  rewrite <- ToUint32_add by done.
  rewrite and_FF.
  rewrite (and_FF_shr _ 1), (and_FF_shr _ 2), (and_FF_shr _ 3) by lia.
  done.
Qed.

(** [_chacha] against the block function of the specification. *)
Lemma chacha_spec this :
  length (_param this) = 16%nat → length (_keystream this) = 64%nat →
  bounded (2 ^ 48) (_param this) →
  _keystream (_chacha this) = Spec.block (JS.ToUint32 <$> _param this).
Proof.
  intros Hp Hk Hb. rewrite chacha_keystream by done. unfold Spec.block.
  destruct (iter_double_round_sim (2 ^ 48) 10 (_param this)) as (Hsim & Hb10);
    [done|lia|lia|done|].
  rewrite <- Hsim.
  rewrite zip_with_16 by (by rewrite length_fmap, ?iter_double_round_length).
  rewrite <- list_fmap_compose. f_equal.
  apply list_fmap_ext. intros _ j _. cbn [compose].
  rewrite !get_fmap_ToUint32. apply js_bytes_le.
  pose proof (bounded_get (2 ^ 48) _ j ltac:(lia) Hb).
  pose proof (bounded_get (2 ^ 48) _ j ltac:(lia) Hb10). lia.
Qed.

End Block.

(** ** The states an engine reaches *)

Section Reachable.

Implicit Types (this : Chacha20) (cs : list call).

Lemma advance_add (a b : nat) : ∀ this,
  advance (a + b) this = advance b (advance a this).
Proof. induction a as [|a IH]; intros this; [done|]. cbn [Nat.add advance]. apply IH. Qed.

Lemma run_advance cs : ∀ this, (run this cs).2 = advance (total_bytes cs) this.
Proof.
  induction cs as [|c cs IH]; intros this; [done|].
  rewrite run_cons. cbn [snd]. rewrite IH, invoke_advance.
  unfold total_bytes. cbn [fmap list_fmap sum_list]. by rewrite advance_add.
Qed.

Lemma refill_keystream_length this :
  length (_keystream (refill this)) = length (_keystream this).
Proof.
  pose proof (chacha_keystream_length this) as H. revert H.
  unfold refill. generalize (_chacha this). intros c H.
  destruct (_ || _); [exact H|done].
Qed.

Lemma advance_keystream_length (n : nat) : ∀ this,
  length (_keystream (advance n this)) = length (_keystream this).
Proof.
  induction n as [|n IH]; intros this; [done|].
  cbn [advance]. rewrite IH. unfold next_keystream. cbn [snd _keystream].
  apply refill_keystream_length.
Qed.

Lemma initial_bounded key nonce counter :
  0 <= default 0 counter < 2 ^ 32 →
  bounded (2 ^ 48) (_param (initial key nonce counter)).
Proof.
  intros Hc. unfold initial, bounded. cbn [_param].
  repeat (apply Forall_cons; split); try apply Forall_nil; try lia.
  all: unfold _get32;
    match goal with
    | |- Z.abs (JS.xor ?a ?b) <= _ => pose proof (int32_abs _ (xor_int32 a b)); lia
    end.
Qed.

(** An engine constructed with a 32-bit counter, after at most [2^48]
    bytes: 16 state words, 64 keystream entries, and state words that are
    safe integers. *)
Lemma advance_initial_state key nonce counter (n : nat) :
  0 <= default 0 counter < 2 ^ 32 → Z.of_nat n <= 2 ^ 48 →
  let this := advance n (initial key nonce counter) in
  length (_param this) = 16%nat
  ∧ length (_keystream this) = 64%nat
  ∧ bounded (2 ^ 48) (_param this).
Proof.
  intros Hc Hn. cbn zeta.
  destruct (advance_frame n (initial key nonce counter)) as [Hlen Hsame].
  destruct (initial_counter key nonce counter) as (Hl & Hp & Hw).
  split; [congruence|]. split; [by rewrite advance_keystream_length|].
  apply bounded_of_get. intros j. destruct (decide (j = 12%nat)) as [->|Hj].
  - rewrite advance_counter; rewrite ?Hl, ?Hp, ?Hw; try lia.
    all: Z.div_mod_to_equations; lia.
  - unfold get. rewrite Hsame by done.
    apply (bounded_get (2 ^ 48) _ j); [lia|]. by apply initial_bounded.
Qed.

End Reachable.

(** ** The words of the key and of the nonce *)

Section Layout.

Lemma ToInt32_ToUint32 x : JS.ToInt32 (JS.ToUint32 x) = JS.ToInt32 x.
Proof.
  unfold JS.ToInt32, JS.ToUint32. by rewrite Zplus_mod_idemp_l.
Qed.

(** Signed 32-bit integers with the same 32 low bits are equal. *)
Lemma int32_bits_eq x y :
  int32 x → int32 y →
  (∀ i, 0 <= i < 32 → Z.testbit x i = Z.testbit y i) → x = y.
Proof.
  intros Hx Hy H. rewrite <- (ToInt32_id x), <- (ToInt32_id y) by done.
  rewrite <- (ToInt32_ToUint32 x), <- (ToInt32_ToUint32 y).
  f_equal. by apply ToUint32_bits.
Qed.

Lemma u8_high_bits b i : 8 <= i → Z.testbit (u8_to_Z b) i = false.
Proof.
  intros Hi. pose proof (u8_to_Z_range b).
  rewrite <- (Z.mod_small (u8_to_Z b) (2 ^ 8)) by lia.
  apply Z.mod_pow2_bits_high. lia.
Qed.

Lemma shl_testbit x k i :
  0 <= k < 32 → 0 <= i < 32 →
  Z.testbit (JS.shl x k) i = if decide (k <= i) then Z.testbit x (i - k) else false.
Proof.
  intros Hk Hi. unfold JS.shl. rewrite shift_count by done.
  rewrite ToInt32_testbit, Z.shiftl_spec by lia. case_decide.
  - apply ToInt32_testbit. lia.
  - apply Z.testbit_neg_r. lia.
Qed.

(** [_get32] on four bytes of the array: the little-endian word, read as a
    signed 32-bit integer. *)
Lemma get32_signed (data : list byte) (index : nat) (b0 b1 b2 b3 : byte) :
  data !! index = Some b0 → data !! (index + 1)%nat = Some b1 →
  data !! (index + 2)%nat = Some b2 → data !! (index + 3)%nat = Some b3 →
  _get32 data index
  = JS.ToInt32 (Spec.le_word (u8_to_Z b0) (u8_to_Z b1) (u8_to_Z b2) (u8_to_Z b3)).
Proof.
  intros H0 H1 H2 H3. unfold _get32, get8. rewrite H0, H1, H2, H3.
  cbn [fmap option_fmap option_map from_option id].
  apply int32_bits_eq; [apply xor_int32|apply ToInt32_int32|].
  intros i Hi. unfold JS.xor at 1. rewrite Z.lxor_spec, !ToInt32_testbit by done.
  unfold JS.xor at 1. rewrite Z.lxor_spec, !ToInt32_testbit by done.
  unfold JS.xor at 1. rewrite Z.lxor_spec, !ToInt32_testbit by done.
  rewrite !shl_testbit by lia.
  unfold Spec.le_word. rewrite !Z.lor_spec, !Z.shiftl_spec by lia.
  destruct (Z_lt_dec i 8); [|destruct (Z_lt_dec i 16); [|destruct (Z_lt_dec i 24)]].
  - repeat case_decide; try lia.
    rewrite !(Z.testbit_neg_r _ (i - _)) by lia.
    by destruct (Z.testbit (u8_to_Z b0) i).
  - repeat case_decide; try lia.
    rewrite (u8_high_bits b0 i) by lia.
    rewrite !(Z.testbit_neg_r _ (i - 16)), !(Z.testbit_neg_r _ (i - 24)) by lia.
    by destruct (Z.testbit (u8_to_Z b1) (i - 8)).
  - repeat case_decide; try lia.
    rewrite (u8_high_bits b0 i), (u8_high_bits b1 (i - 8)) by lia.
    rewrite !(Z.testbit_neg_r _ (i - 24)) by lia.
    by destruct (Z.testbit (u8_to_Z b2) (i - 16)).
  - repeat case_decide; try lia.
    rewrite (u8_high_bits b0 i), (u8_high_bits b1 (i - 8)),
      (u8_high_bits b2 (i - 16)) by lia.
    by destruct (Z.testbit (u8_to_Z b3) (i - 24)).
Qed.

Lemma get32_le_word_at (data : list byte) (i : nat) :
  (4 * i + 3 < length data)%nat →
  _get32 data (4 * i) = JS.ToInt32 (le_word_at data i).
Proof.
  intros Hlen. unfold le_word_at, get8.
  destruct (lookup_lt_is_Some_2 data (4 * i)) as [b0 H0]; [lia|].
  destruct (lookup_lt_is_Some_2 data (4 * i + 1)) as [b1 H1]; [lia|].
  destruct (lookup_lt_is_Some_2 data (4 * i + 2)) as [b2 H2]; [lia|].
  destruct (lookup_lt_is_Some_2 data (4 * i + 3)) as [b3 H3]; [lia|].
  rewrite (get32_signed data (4 * i) b0 b1 b2 b3) by done.
  rewrite H0, H1, H2, H3. done.
Qed.

(** The state a successful construction builds: the constants, the key
    words, the counter, the nonce words; each key or nonce word is the
    little-endian word of its four bytes read as a signed integer. *)
Lemma constructor_layout (h : gmap positive (list byte)) key nonce counter E k n :
  constructor h key nonce counter = Ok E →
  as_Uint8Array h key = Some k → as_Uint8Array h nonce = Some n →
  _param E
  = [0x61707865; 0x3320646e; 0x79622d32; 0x6b206574]
    ++ ((λ i, JS.ToInt32 (le_word_at k i)) <$> seq 0 8)
    ++ [default 0 counter]
    ++ ((λ i, JS.ToInt32 (le_word_at n i)) <$> seq 0 3)
  ∧ _keystream E = replicate 64 0
  ∧ _byteCounter E = 0%nat.
Proof.
  intros HE Hk Hn.
  apply constructor_Ok_inv in HE as (k' & n' & Hk' & Hk32 & Hn' & Hn12 & ->).
  assert (k' = k) as -> by congruence. assert (n' = n) as -> by congruence.
  split; [|done]. unfold initial. cbn [_param app fmap list_fmap seq].
  rewrite <- !get32_le_word_at by lia. done.
Qed.

End Layout.

(** * The claims *)

(** C1: for a 32-byte key, a 12-byte nonce and any initial counter, an
    engine E1 constructed from them encrypts every sequence of non-empty
    plaintexts without error, and an engine E2 constructed independently
    from the same key, nonce and counter, given the ciphertexts in the same
    order (hence the same call lengths), decrypts them to the plaintexts;
    both engines end in the same state. *)
Theorem C1_decrypt_recovers_plaintext
    (h1 h2 : gmap positive (list byte)) (key1 nonce1 key2 nonce2 : value)
    (k n : list byte) (counter : option Z)
    (cs1 : list call) (ps : list (list byte)) :
  as_Uint8Array h1 key1 = Some k → as_Uint8Array h2 key2 = Some k →
  length k = 32%nat →
  as_Uint8Array h1 nonce1 = Some n → as_Uint8Array h2 nonce2 = Some n →
  length n = 12%nat →
  Forall2 (λ c p, call_method c = Encrypt ∧ call_bytes c = Some p ∧ p ≠ []) cs1 ps →
  ∃ E1 E2 cts E',
    constructor h1 key1 nonce1 counter = Ok E1
    ∧ constructor h2 key2 nonce2 counter = Ok E2
    ∧ run E1 cs1 = (Ok <$> cts, E')
    ∧ ∀ cs2,
        Forall2 (λ c ct, call_method c = Decrypt ∧ call_bytes c = Some ct) cs2 cts →
        run E2 cs2 = (Ok <$> ps, E').
Proof.
  intros Hk1 Hk2 Hk Hn1 Hn2 Hn Hcs.
  set (E := initial k n counter).
  exists E, E, (xor_chunks E ps).1, (xor_chunks E ps).2.
  split; [by apply constructor_ok|]. split; [by apply constructor_ok|].
  split.
  - apply run_valid. eapply Forall2_impl; [exact Hcs|].
    intros c p (_ & Hp & Hne). by split.
  - intros cs2 Hcs2.
    rewrite (run_valid E cs2 (xor_chunks E ps).1).
    + by rewrite xor_chunks_involutive.
    + assert (Hne : Forall (λ ct, ct ≠ []) (xor_chunks E ps).1).
      { apply xor_chunks_nonempty.
        clear -Hcs.
        induction Hcs as [|c p cs ps (_ & _ & Hp) _ IH]; constructor; auto. }
      revert Hne. clear -Hcs2.
      induction Hcs2 as [|c ct cs2 cts [_ Hc] _ IH]; intros Hne; [constructor|].
      apply Forall_cons in Hne as [Hct Hne]. constructor; auto.
Qed.

Lemma C1_witness :
  ∃ E1 E2 cts E',
    constructor rfc_heap (VUint8Array 1) (VUint8Array 2) (Some 1) = Ok E1
    ∧ constructor rfc_heap (VUint8Array 1) (VUint8Array 2) (Some 1) = Ok E2
    ∧ run E1 [mkCall Encrypt rfc_heap (VUint8Array 3)] = (Ok <$> cts, E')
    ∧ ∀ cs2,
        Forall2 (λ c ct, call_method c = Decrypt ∧ call_bytes c = Some ct) cs2 cts →
        run E2 cs2 = (Ok <$> [rfc_text], E').
Proof.
  apply (C1_decrypt_recovers_plaintext rfc_heap rfc_heap
           (VUint8Array 1) (VUint8Array 2) (VUint8Array 1) (VUint8Array 2)
           rfc_key rfc_nonce (Some 1)
           [mkCall Encrypt rfc_heap (VUint8Array 3)] [rfc_text]).
  - reflexivity.
  - reflexivity.
  - reflexivity.
  - reflexivity.
  - reflexivity.
  - reflexivity.
  - constructor; [|constructor].
    split; [reflexivity|]. split; [reflexivity|]. discriminate.
Defined.

(** C2: on a state of 16 words that are safe integers (at most 2^48 in
    magnitude) and a keystream block of 64 entries, [_chacha] leaves in
    [_keystream] the block that the specification describes, computed on
    the state words taken modulo 2^32: copy, 10 double-rounds of column and
    diagonal quarter-rounds, addition of the original state modulo 2^32,
    little-endian serialization.  Every engine constructed with a 32-bit
    counter is in such a state after any calls that process at most 2^48
    bytes. *)
Theorem C2_block_function :
  (∀ this : Chacha20,
      length (_param this) = 16%nat →
      length (_keystream this) = 64%nat →
      bounded (2 ^ 48) (_param this) →
      _keystream (_chacha this) = Spec.block (JS.ToUint32 <$> _param this))
  ∧ (∀ (h : gmap positive (list byte)) (key nonce : value) (counter : option Z)
       (E : Chacha20) (cs : list call),
      constructor h key nonce counter = Ok E →
      0 <= default 0 counter < 2 ^ 32 →
      Z.of_nat (total_bytes cs) <= 2 ^ 48 →
      _keystream (_chacha (run E cs).2)
      = Spec.block (JS.ToUint32 <$> _param (run E cs).2)).
Proof.
  split; [apply chacha_spec|].
  intros h key nonce counter E cs HE Hc Hn.
  apply constructor_Ok_inv in HE as (k & n & _ & _ & _ & _ & ->).
  rewrite run_advance.
  destruct (advance_initial_state k n counter (total_bytes cs) Hc Hn) as (Hl & Hk & Hb).
  by apply chacha_spec.
Qed.

Lemma C2_witness :
  _keystream (_chacha rfc_engine) = Spec.block (JS.ToUint32 <$> _param rfc_engine).
Proof.
  apply (proj1 C2_block_function rfc_engine).
  - reflexivity.
  - reflexivity.
  - unfold bounded, rfc_engine, initial. cbn [_param].
    repeat (apply Forall_cons_2; [vm_compute; discriminate|]).
    apply Forall_nil_2.
Defined.

(** C3 at a key whose fourth byte is 0x80: the constructor succeeds, and
    word 4 of the state is -2147483648, where the little-endian word of the
    bytes 00 00 00 80 as a 32-bit unsigned value is 2147483648.  The other
    words are as the claim lays them out. *)
Theorem C3_high_byte_word_is_negative :
  constructor high_heap (VUint8Array 1) (VUint8Array 2) None
  = Ok (initial high_key (replicate 12 x00) None)
  ∧ _param (initial high_key (replicate 12 x00) None)
    = [0x61707865; 0x3320646e; 0x79622d32; 0x6b206574;
       -2147483648; 0; 0; 0; 0; 0; 0; 0;
       0;
       0; 0; 0]
  ∧ le_word_at high_key 0 = 2147483648
  ∧ get (_param (initial high_key (replicate 12 x00) None)) 4 ≠ le_word_at high_key 0.
Proof. vm_compute. repeat split; discriminate. Qed.

(** C4, as the code has it: each time a block is generated the counter
    word grows by exactly 1 as a number, without wrapping modulo 2^32 (the
    sum is exact below 2^53); no block is generated, and the engine is as it
    was, when the cursor is neither 0 nor 64.  After one call on [n] bytes an
    engine constructed with a 32-bit counter [c] holds [c + ceil(n / 64)] in
    word 12; after 4096 bytes from counter 0 it holds 64. *)
Theorem C4_counter_word_grows_by_one :
  (∀ this : Chacha20,
      (12 < length (_param this))%nat →
      0 <= get (_param this) 12 < 2 ^ 53 →
      _byteCounter this = 0%nat ∨ _byteCounter this = 64%nat →
      _keystream (refill this) = _keystream (_chacha this)
      ∧ get (_param (refill this)) 12 = get (_param this) 12 + 1)
  ∧ (∀ this : Chacha20,
      _byteCounter this ≠ 0%nat → _byteCounter this ≠ 64%nat →
      refill this = this)
  ∧ (∀ (h hd : gmap positive (list byte)) (key nonce : value) (c : Z)
       (E : Chacha20) (m : method) (data : positive) (d : list byte),
      constructor h key nonce (Some c) = Ok E →
      0 <= c < 2 ^ 32 →
      hd !! data = Some d → d ≠ [] → Z.of_nat (length d) <= 2 ^ 53 →
      get (_param (invoke (mkCall m hd (VUint8Array data)) E).2) 12
      = c + (Z.of_nat (length d) + 63) / 64)
  ∧ (∀ (h hd : gmap positive (list byte)) (key nonce : value)
       (counter : option Z) (E : Chacha20) (m : method) (data : positive)
       (d : list byte),
      constructor h key nonce counter = Ok E →
      counter = None ∨ counter = Some 0 →
      hd !! data = Some d → length d = 4096%nat →
      get (_param (invoke (mkCall m hd (VUint8Array data)) E).2) 12 = 64).
Proof.
  split; [|split; [|split]].
  - intros this Hlen Hc Hbc. rewrite refill_block by done.
    generalize (_chacha this). intros blk.
    cbn [_keystream _param]. split; [done|].
    rewrite get_insert_eq by done. unfold JS.add. apply fl_small. lia.
  - intros this. apply refill_no_block.
  - intros h hd key nonce c E m data d HE Hc Hd Hne Hmax.
    apply constructor_Ok_inv in HE as (k & n & _ & _ & _ & _ & ->).
    destruct (initial_counter k n (Some c)) as (Hl & Hp & Hw).
    cbn [from_option id] in Hw.
    rewrite (invoke_counter m hd data d); rewrite ?Hl, ?Hw; try done; try lia.
    Z.div_mod_to_equations. lia.
  - intros h hd key nonce counter E m data d HE Hc Hd Hlen.
    apply constructor_Ok_inv in HE as (k & n & _ & _ & _ & _ & ->).
    destruct (initial_counter k n counter) as (Hl & Hp & Hw).
    assert (Hc0 : default 0 counter = 0) by (by destruct Hc as [-> | ->]).
    rewrite (invoke_counter m hd data d); rewrite ?Hl, ?Hw, ?Hc0, ?Hlen; try done; try lia.
    intros ->. done.
Qed.

Lemma C4_witness :
  _keystream (refill rfc_engine) = _keystream (_chacha rfc_engine)
  ∧ get (_param (refill rfc_engine)) 12 = get (_param rfc_engine) 12 + 1.
Proof.
  apply (proj1 C4_counter_word_grows_by_one rfc_engine).
  - simpl. lia.
  - change (0 <= 1 < 2 ^ 53). lia.
  - left. reflexivity.
Defined.

(** C4 as stated fails: an engine constructed with the 32-bit counter
    [2^32 - 1] holds [2^32] in word 12 after its first block, not 0, and
    [2^32 + 1] after encrypting the 114 bytes of the test (two blocks),
    not 1. *)
Lemma C4_counterexample :
  constructor rfc_heap (VUint8Array 1) (VUint8Array 2) (Some 4294967295)
  = Ok (initial rfc_key rfc_nonce (Some 4294967295))
  ∧ get (_param (initial rfc_key rfc_nonce (Some 4294967295))) 12 = 4294967295
  ∧ get (_param (refill (initial rfc_key rfc_nonce (Some 4294967295)))) 12
    = 4294967296
  ∧ get (_param (refill (initial rfc_key rfc_nonce (Some 4294967295)))) 12
    ≠ (4294967295 + 1) mod 2 ^ 32
  ∧ get (_param (encrypt (VUint8Array 3) rfc_heap
                   (initial rfc_key rfc_nonce (Some 4294967295))).2) 12
    = 4294967297
  ∧ get (_param (encrypt (VUint8Array 3) rfc_heap
                   (initial rfc_key rfc_nonce (Some 4294967295))).2) 12
    ≠ (4294967295 + 2) mod 2 ^ 32.
Proof. vm_compute. repeat split; discriminate. Qed.

(** C5: [encrypt] and [decrypt] are the same operation: on every argument,
    heap and engine they return the same result, heap and engine; and two
    engines constructed from the same key bytes, nonce bytes and counter,
    neither having processed a byte, give the caller the same outcome on the
    same data, one through [encrypt] and the other through [decrypt]. *)
Theorem C5_encrypt_is_decrypt :
  (∀ (data : value) (h : gmap positive (list byte)) (this : Chacha20),
      encrypt data h this = decrypt data h this)
  ∧ (∀ (h1 h2 ha hb : gmap positive (list byte))
       (key1 nonce1 key2 nonce2 da db : value) (counter : option Z)
       (E1 E2 : Chacha20),
        as_Uint8Array h1 key1 = as_Uint8Array h2 key2 →
        as_Uint8Array h1 nonce1 = as_Uint8Array h2 nonce2 →
        constructor h1 key1 nonce1 counter = Ok E1 →
        constructor h2 key2 nonce2 counter = Ok E2 →
        as_Uint8Array ha da = as_Uint8Array hb db →
        outcome (encrypt da ha E1) = outcome (decrypt db hb E2)
        ∧ (encrypt da ha E1).2 = (decrypt db hb E2).2).
Proof.
  split; [done|].
  intros h1 h2 ha hb key1 nonce1 key2 nonce2 da db counter E1 E2 Hk Hn HE1 HE2 Hd.
  rewrite (constructor_ext h1 h2 key1 key2 nonce1 nonce2 counter Hk Hn) in HE1.
  assert (E1 = E2) as -> by congruence.
  split.
  - apply (invoke_outcome_bytes (mkCall Encrypt ha da) (mkCall Decrypt hb db) E2 Hd).
  - apply (invoke_state_length (mkCall Encrypt ha da) (mkCall Decrypt hb db) E2).
    unfold call_bytes. cbn [call_heap call_arg]. by rewrite Hd.
Qed.

Lemma C5_witness :
  outcome (encrypt (VUint8Array 3) rfc_heap rfc_engine)
  = outcome (decrypt (VUint8Array 3) rfc_heap rfc_engine).
Proof.
  apply (proj2 C5_encrypt_is_decrypt rfc_heap rfc_heap rfc_heap rfc_heap
           (VUint8Array 1) (VUint8Array 2) (VUint8Array 1) (VUint8Array 2)
           (VUint8Array 3) (VUint8Array 3) (Some 1) rfc_engine rfc_engine).
  - reflexivity.
  - reflexivity.
  - vm_compute. reflexivity.
  - vm_compute. reflexivity.
  - reflexivity.
Defined.

(** C6: construction throws exactly when the key is not a [Uint8Array] of
    32 bytes or the nonce is not a [Uint8Array] of 12 bytes.  It throws for
    [null] and for keys of 0, 16, 31 or 33 bytes, for nonces of 0, 11 or 13
    bytes, and returns an engine for a 32-byte key with a 12-byte nonce. *)
Theorem C6_constructor_validation
    (h : gmap positive (list byte)) (key nonce : value) (counter : option Z) :
  ((∃ m, constructor h key nonce counter = Throw m) ↔
     ¬ (∃ k, as_Uint8Array h key = Some k ∧ length k = 32%nat)
     ∨ ¬ (∃ n, as_Uint8Array h nonce = Some n ∧ length n = 12%nat))
  ∧ (as_Uint8Array h key = None →
     constructor h key nonce counter = Throw key_error)
  ∧ (∀ k, as_Uint8Array h key = Some k →
          (length k = 0 ∨ length k = 16 ∨ length k = 31 ∨ length k = 33)%nat →
          constructor h key nonce counter = Throw key_error)
  ∧ (∀ n, as_Uint8Array h nonce = None ∨
          (as_Uint8Array h nonce = Some n
           ∧ (length n = 0 ∨ length n = 11 ∨ length n = 13)%nat) →
          ∃ m, constructor h key nonce counter = Throw m)
  ∧ (∀ k n, as_Uint8Array h key = Some k → length k = 32%nat →
            as_Uint8Array h nonce = Some n → length n = 12%nat →
            ∃ E, constructor h key nonce counter = Ok E).
Proof.
  assert (Hiff : (∃ m, constructor h key nonce counter = Throw m) ↔
     ¬ (∃ k, as_Uint8Array h key = Some k ∧ length k = 32%nat)
     ∨ ¬ (∃ n, as_Uint8Array h nonce = Some n ∧ length n = 12%nat)).
  { split.
    - intros [m Hm].
      destruct (valid_dec h key 32) as [(k & Hk & Hk32)|]; [|by left].
      destruct (valid_dec h nonce 12) as [(n & Hn & Hn12)|]; [|by right].
      by rewrite (constructor_ok h key nonce counter k n) in Hm.
    - intros Hbad.
      destruct (valid_dec h key 32) as [(k & Hk & Hk32)|Hk].
      + destruct Hbad as [Hbad|Hbad]; [destruct Hbad; eauto|].
        exists nonce_error. by eapply constructor_nonce_error.
      + exists key_error. by apply constructor_key_error. }
  split; [exact Hiff|]. split; [|split; [|split]].
  - intros Hk. apply constructor_key_error. intros (k & Hk' & _). congruence.
  - intros k Hk Hlen. apply constructor_key_error.
    intros (k' & Hk' & Hk32). assert (k' = k) as -> by congruence.
    lia.
  - intros n Hn. apply Hiff. right. intros (n' & Hn' & Hn12).
    destruct Hn as [Hn|[Hn Hlen]]; [congruence|].
    assert (n' = n) as -> by congruence.
    lia.
  - intros k n Hk Hk32 Hn Hn12. eexists. by apply constructor_ok.
Qed.

Lemma C6_witness :
  constructor (<[1%positive := replicate 16 x00]> ∅) (VUint8Array 1) VNull None
  = Throw key_error.
Proof.
  apply (proj1 (proj2 (proj2 (C6_constructor_validation
           (<[1%positive := replicate 16 x00]> ∅) (VUint8Array 1) VNull None)))
           (replicate 16 x00)).
  - reflexivity.
  - simpl. lia.
Defined.

(** C7: [encrypt] and [decrypt] throw when the argument is not a
    [Uint8Array] or is empty, and leave the heap and the engine ([_param],
    [_keystream], [_byteCounter]) as they were; more generally a call that
    throws has changed nothing. *)
Theorem C7_rejected_call_changes_nothing
    (data : value) (h : gmap positive (list byte)) (this : Chacha20) :
  (as_Uint8Array h data = None ∨ as_Uint8Array h data = Some [] →
   encrypt data h this = (Throw data_error, h, this)
   ∧ decrypt data h this = (Throw data_error, h, this))
  ∧ (∀ m h' this',
       encrypt data h this = (Throw m, h', this')
       ∨ decrypt data h this = (Throw m, h', this') →
       h' = h ∧ this' = this).
Proof.
  split.
  - intros Hbad. split; by apply update_throw.
  - intros m h' this' Hthrow.
    assert (Hu : _update data h this = (Throw m, h', this')) by (by destruct Hthrow).
    destruct (update_cases data h this) as [(l & d & _ & _ & _ & Hok)|[_ Hbad]];
      rewrite Hu in *; [done|].
    by injection Hbad as _ -> ->.
Qed.

Lemma C7_witness :
  encrypt VNull rfc_heap rfc_engine = (Throw data_error, rfc_heap, rfc_engine)
  ∧ decrypt VNull rfc_heap rfc_engine = (Throw data_error, rfc_heap, rfc_engine).
Proof.
  apply (proj1 (C7_rejected_call_changes_nothing VNull rfc_heap rfc_engine)).
  left. reflexivity.
Defined.

(** C8: [_chacha] overwrites the 64 entries of [_keystream] and nothing
    else: [_param] and [_byteCounter] are as before.  Through any sequence
    of calls on an engine, [_param] keeps its length and every word of it
    other than word 12. *)
Theorem C8_only_keystream_and_counter_change (this : Chacha20) :
  (_param (_chacha this) = _param this
   ∧ _byteCounter (_chacha this) = _byteCounter this
   ∧ length (_keystream (_chacha this)) = length (_keystream this))
  ∧ (∀ cs,
       length (_param (run this cs).2) = length (_param this)
       ∧ ∀ i, i ≠ 12%nat → _param (run this cs).2 !! i = _param this !! i).
Proof.
  split.
  - split; [apply chacha_param|]. split; [apply chacha_byteCounter|].
    apply chacha_keystream_length.
  - intros cs. apply run_frame.
Qed.

Lemma C8_witness :
  _param (run rfc_engine [mkCall Encrypt rfc_heap (VUint8Array 3)]).2 !! 4%nat
  = _param rfc_engine !! 4%nat.
Proof.
  apply (proj2 (C8_only_keystream_and_counter_change rfc_engine)
           [mkCall Encrypt rfc_heap (VUint8Array 3)]).
  lia.
Defined.

(** C9: two engines constructed from the same key bytes, nonce bytes and
    counter and driven by calls of the same lengths are in the same state
    ([_param], [_keystream], [_byteCounter]) after every call, whatever the
    bytes are; given the same bytes they also give the caller the same
    outcomes. *)
Theorem C9_same_lengths_same_trajectory
    (h1 h2 : gmap positive (list byte)) (key1 nonce1 key2 nonce2 : value)
    (counter : option Z) (E1 E2 : Chacha20) (cs1 cs2 : list call) :
  as_Uint8Array h1 key1 = as_Uint8Array h2 key2 →
  as_Uint8Array h1 nonce1 = as_Uint8Array h2 nonce2 →
  constructor h1 key1 nonce1 counter = Ok E1 →
  constructor h2 key2 nonce2 counter = Ok E2 →
  Forall2 (λ c1 c2, length <$> call_bytes c1 = length <$> call_bytes c2) cs1 cs2 →
  E1 = E2
  ∧ (∀ j, (run E1 (take j cs1)).2 = (run E2 (take j cs2)).2)
  ∧ (Forall2 (λ c1 c2, call_bytes c1 = call_bytes c2) cs1 cs2 →
     (run E1 cs1).1 = (run E2 cs2).1).
Proof.
  intros Hk Hn HE1 HE2 Hcs.
  rewrite (constructor_ext h1 h2 key1 key2 nonce1 nonce2 counter Hk Hn) in HE1.
  assert (E1 = E2) as -> by congruence.
  split; [done|]. split.
  - intros j. apply run_state_lengths. by apply Forall2_take.
  - apply run_outcomes_bytes.
Qed.

Lemma C9_witness :
  (run rfc_engine (take 1 [mkCall Encrypt rfc_heap (VUint8Array 3)])).2
  = (run rfc_engine (take 1 [mkCall Decrypt rfc_heap (VUint8Array 4)])).2.
Proof.
  apply (C9_same_lengths_same_trajectory rfc_heap rfc_heap
           (VUint8Array 1) (VUint8Array 2) (VUint8Array 1) (VUint8Array 2)
           (Some 1) rfc_engine rfc_engine
           [mkCall Encrypt rfc_heap (VUint8Array 3)]
           [mkCall Decrypt rfc_heap (VUint8Array 4)]).
  - reflexivity.
  - reflexivity.
  - vm_compute. reflexivity.
  - vm_compute. reflexivity.
  - constructor; [|constructor]. vm_compute. reflexivity.
Defined.

(** C10: a call of [encrypt] or [decrypt] on a non-empty [Uint8Array]
    returns a new array, one that was not in the heap before, of the length
    of the input; the input array and every other array of the heap hold
    the same bytes after the call as before. *)
Theorem C10_input_not_modified
    (data : positive) (h : gmap positive (list byte)) (this : Chacha20)
    (d : list byte) (m : method) :
  h !! data = Some d → d ≠ [] →
  ∃ output out h' this',
    invoke (mkCall m h (VUint8Array data)) this = (Ok (VUint8Array output), h', this')
    ∧ h !! output = None
    ∧ h' !! output = Some out
    ∧ length out = length d
    ∧ h' !! data = Some d
    ∧ ∀ l, l ≠ output → h' !! l = h !! l.
Proof.
  intros Hd Hne.
  exists (fresh (dom h)), (xor_stream this d).1,
    (<[fresh (dom h) := (xor_stream this d).1]> h), (xor_stream this d).2.
  assert (Hfresh : h !! fresh (dom h) = None).
  { apply not_elem_of_dom. apply is_fresh. }
  split; [|split; [done|split; [|split; [|split]]]].
  - rewrite invoke_update. cbn [call_arg call_heap]. by apply update_ok.
  - by rewrite lookup_insert_eq.
  - apply xor_stream_length.
  - rewrite lookup_insert_ne; [done|]. intros E. congruence.
  - intros l Hl. by rewrite lookup_insert_ne.
Qed.

Lemma C10_witness :
  ∃ output out h' this',
    invoke (mkCall Encrypt rfc_heap (VUint8Array 3)) rfc_engine
    = (Ok (VUint8Array output), h', this')
    ∧ rfc_heap !! output = None
    ∧ h' !! output = Some out
    ∧ length out = length rfc_text
    ∧ h' !! 3%positive = Some rfc_text
    ∧ ∀ l, l ≠ output → h' !! l = rfc_heap !! l.
Proof.
  apply (C10_input_not_modified 3 rfc_heap rfc_engine rfc_text Encrypt).
  - reflexivity.
  - discriminate.
Defined.

(** * Further properties *)

(** The specification's stream on the test vector of RFC 7539, section
    2.4.2. *)
Example spec_encrypt_rfc7539 : spec_encrypt rfc_key rfc_nonce 1 rfc_text = rfc_cipher.
Proof. vm_compute. reflexivity. Qed.

(** ** Splitting a stream into calls *)

Section Chunks.

Implicit Types (this : Chacha20) (d : list byte) (ps : list (list byte)).

Lemma xor_stream_app this d1 d2 :
  xor_stream this (d1 ++ d2)
  = ((xor_stream this d1).1 ++ (xor_stream (xor_stream this d1).2 d2).1,
     (xor_stream (xor_stream this d1).2 d2).2).
Proof.
  revert this. induction d1 as [|x d1 IH]; intros this.
  - cbn [app xor_stream fst snd]. by destruct (xor_stream this d2).
  - cbn [app]. rewrite !xor_stream_cons. cbn [fst snd]. by rewrite IH.
Qed.

Lemma xor_chunks_concat this ps :
  xor_stream this (concat ps)
  = (concat (xor_chunks this ps).1, (xor_chunks this ps).2).
Proof.
  revert this. induction ps as [|p ps IH]; intros this; [done|].
  cbn [concat]. rewrite xor_stream_app, xor_chunks_cons, IH. done.
Qed.

End Chunks.

(** X1: the ciphertext of a stream does not depend on how the stream is
    split into calls.  Two sequences of calls on non-empty arrays whose
    bytes, put end to end, are the same stream give, from the same engine
    state, the same output stream and the same final engine. *)
Theorem X1_chunking_does_not_matter
    (this : Chacha20) (cs1 cs2 : list call) (ps1 ps2 : list (list byte)) :
  Forall2 (λ c p, call_bytes c = Some p ∧ p ≠ []) cs1 ps1 →
  Forall2 (λ c p, call_bytes c = Some p ∧ p ≠ []) cs2 ps2 →
  concat ps1 = concat ps2 →
  ∃ outs1 outs2,
    (run this cs1).1 = Ok <$> outs1
    ∧ (run this cs2).1 = Ok <$> outs2
    ∧ concat outs1 = concat outs2
    ∧ (run this cs1).2 = (run this cs2).2.
Proof.
  intros H1 H2 Hcat.
  exists (xor_chunks this ps1).1, (xor_chunks this ps2).1.
  rewrite (run_valid this cs1 ps1 H1), (run_valid this cs2 ps2 H2). cbn [fst snd].
  pose proof (xor_chunks_concat this ps1) as E1.
  pose proof (xor_chunks_concat this ps2) as E2.
  rewrite Hcat, E2 in E1. by injection E1 as -> ->.
Qed.

Lemma X1_witness :
  ∃ outs1 outs2,
    (run rfc_engine [mkCall Encrypt rfc_heap2 (VUint8Array 5);
                     mkCall Encrypt rfc_heap2 (VUint8Array 6)]).1 = Ok <$> outs1
    ∧ (run rfc_engine [mkCall Encrypt rfc_heap2 (VUint8Array 3)]).1 = Ok <$> outs2
    ∧ concat outs1 = concat outs2
    ∧ (run rfc_engine [mkCall Encrypt rfc_heap2 (VUint8Array 5);
                       mkCall Encrypt rfc_heap2 (VUint8Array 6)]).2
      = (run rfc_engine [mkCall Encrypt rfc_heap2 (VUint8Array 3)]).2.
Proof.
  apply (X1_chunking_does_not_matter rfc_engine _ _
           [rfc_text_head; rfc_text_tail] [rfc_text]).
  - constructor; [split; [reflexivity|discriminate]|].
    constructor; [split; [reflexivity|discriminate]|]. constructor.
  - constructor; [split; [reflexivity|discriminate]|]. constructor.
  - reflexivity.
Defined.

(** ** The difference of two ciphertexts *)

Section Difference.

Implicit Types (this : Chacha20) (d : list byte).

Lemma byte_xor_cipher (a b : byte) (k : Z) :
  byte_xor (u8_of_Z (JS.xor (u8_to_Z a) k)) (u8_of_Z (JS.xor (u8_to_Z b) k))
  = byte_xor a b.
Proof.
  unfold byte_xor. rewrite !u8_to_of_Z. apply Z.bits_inj'. intros i Hi.
  rewrite !Z.lxor_spec. change 256 with (2 ^ 8).
  destruct (Z_lt_dec i 8).
  - rewrite !Z.mod_pow2_bits_low by lia. unfold JS.xor.
    rewrite !Z.lxor_spec, !ToInt32_testbit by lia.
    by destruct (Z.testbit (u8_to_Z a) i), (Z.testbit (u8_to_Z b) i), (Z.testbit k i).
  - rewrite !Z.mod_pow2_bits_high by lia.
    rewrite !u8_high_bits by lia. done.
Qed.

Lemma xor_stream_difference this d1 d2 :
  length d1 = length d2 →
  zip_with byte_xor (xor_stream this d1).1 (xor_stream this d2).1
  = zip_with byte_xor d1 d2.
Proof.
  revert this d2. induction d1 as [|a d1 IH]; intros this [|b d2] Hlen; try done.
  rewrite !xor_stream_cons. cbn [fst zip_with].
  rewrite byte_xor_cipher, IH; [done|]. cbn [length] in Hlen. lia.
Qed.

End Difference.

(** X2: the cipher is a plain exclusive or with a keystream that does not
    depend on the data: from the same engine state, the ciphertexts of two
    inputs of the same length differ, byte by byte, exactly where and how
    the inputs differ. *)
Theorem X2_ciphertext_difference_is_plaintext_difference
    (this : Chacha20) (c1 c2 : call) (d1 d2 : list byte) :
  call_bytes c1 = Some d1 → call_bytes c2 = Some d2 →
  d1 ≠ [] → length d1 = length d2 →
  ∃ o1 o2,
    outcome (invoke c1 this) = Ok o1
    ∧ outcome (invoke c2 this) = Ok o2
    ∧ zip_with byte_xor o1 o2 = zip_with byte_xor d1 d2.
Proof.
  intros H1 H2 Hne Hlen.
  assert (Hne2 : d2 ≠ []) by (destruct d1, d2; done).
  exists (xor_stream this d1).1, (xor_stream this d2).1.
  destruct (invoke_valid c1 this d1 H1 Hne) as [-> _].
  destruct (invoke_valid c2 this d2 H2 Hne2) as [-> _].
  split; [done|]. split; [done|]. by apply xor_stream_difference.
Qed.

Lemma X2_witness :
  ∃ o1 o2,
    outcome (invoke (mkCall Encrypt rfc_heap (VUint8Array 3)) rfc_engine) = Ok o1
    ∧ outcome (invoke (mkCall Encrypt rfc_heap (VUint8Array 4)) rfc_engine) = Ok o2
    ∧ zip_with byte_xor o1 o2 = zip_with byte_xor rfc_text rfc_cipher.
Proof.
  apply (X2_ciphertext_difference_is_plaintext_difference rfc_engine
           (mkCall Encrypt rfc_heap (VUint8Array 3))
           (mkCall Encrypt rfc_heap (VUint8Array 4)) rfc_text rfc_cipher).
  - reflexivity.
  - reflexivity.
  - discriminate.
  - reflexivity.
Defined.

(** ** The shape of an engine and its cursor *)

Section Shape.

Implicit Types (this : Chacha20).

Lemma js_bytes_range v : Forall (λ k, 0 <= k < 256) (js_bytes v).
Proof.
  unfold js_bytes. rewrite and_FF.
  rewrite (and_FF_shr _ 1), (and_FF_shr _ 2), (and_FF_shr _ 3) by lia.
  repeat (apply Forall_cons_2; [by apply Z.mod_pos_bound|]). apply Forall_nil_2.
Qed.

Lemma chacha_keystream_bytes this :
  length (_param this) = 16%nat → length (_keystream this) = 64%nat →
  Forall (λ k, 0 <= k < 256) (_keystream (_chacha this)).
Proof.
  intros Hp Hk. rewrite chacha_keystream by done.
  apply Forall_concat, Forall_fmap, Forall_forall. intros j _.
  apply js_bytes_range.
Qed.

Lemma initial_well_formed key nonce counter :
  well_formed (initial key nonce counter).
Proof.
  unfold well_formed, initial. cbn [_param _keystream _byteCounter].
  split; [done|]. split; [done|]. split; [|lia].
  apply Forall_replicate. lia.
Qed.

Lemma chacha_well_formed this : well_formed this → well_formed (_chacha this).
Proof.
  intros (Hp & Hk & Hb & Hc). unfold well_formed.
  rewrite chacha_param, chacha_byteCounter, chacha_keystream_length.
  split; [done|]. split; [done|]. split; [|done].
  by apply chacha_keystream_bytes.
Qed.

(** One byte further: the shape is kept and the cursor is between 1 and
    64. *)
Lemma step_well_formed this :
  well_formed this →
  well_formed (next_keystream (refill this)).2
  ∧ (1 <= _byteCounter (next_keystream (refill this)).2)%nat.
Proof.
  intros Hwf. unfold next_keystream. cbn [snd].
  unfold well_formed. cbn [_param _keystream _byteCounter].
  destruct (refill_cases this) as [E|E]; rewrite E.
  - destruct Hwf as (Hp & Hk & Hb & Hc).
    assert (_byteCounter this ≠ 64%nat).
    { intros H64. pose proof (refill_block this (or_intror H64)) as E'.
      rewrite E in E'. apply (f_equal _byteCounter) in E'.
      cbn [_byteCounter] in E'. lia. }
    repeat split; try done; lia.
  - destruct (chacha_well_formed this Hwf) as (Hp & Hk & Hb & Hc).
    rewrite chacha_param in Hp.
    cbn [_param _keystream _byteCounter]. rewrite length_insert.
    repeat split; try done; lia.
Qed.

Lemma advance_well_formed (n : nat) : ∀ this,
  well_formed this →
  well_formed (advance n this)
  ∧ ((0 < n)%nat → (1 <= _byteCounter (advance n this))%nat).
Proof.
  induction n as [|n IH]; intros this Hwf; [split; [done|lia]|].
  cbn [advance]. destruct (step_well_formed this Hwf) as [Hwf1 Hbc1].
  destruct (IH _ Hwf1) as [Hwf2 Hbc2]. split; [done|]. intros _.
  destruct n as [|n]; [done|]. apply Hbc2. lia.
Qed.

Lemma step_position this :
  (1 <= position this <= 64)%nat →
  position (next_keystream (refill this)).2
  = if decide (position this = 64%nat) then 1%nat else S (position this).
Proof.
  intros Hpos. unfold position in *. unfold next_keystream.
  cbn [snd _byteCounter Nat.eqb].
  destruct (Nat.eqb_spec (_byteCounter this) 0) as [H0|H0].
  - rewrite refill_block by auto. by rewrite decide_True.
  - destruct (decide (_byteCounter this = 64%nat)) as [H64|H64].
    + rewrite refill_block by auto. done.
    + by rewrite refill_no_block.
Qed.

(** [n] bytes further, the cursor has gone round the 64 positions. *)
Lemma advance_position (n : nat) : ∀ this,
  (1 <= position this <= 64)%nat →
  Z.of_nat (position (advance n this))
  = (Z.of_nat (position this) + Z.of_nat n - 1) mod 64 + 1.
Proof.
  induction n as [|n IH]; intros this Hpos.
  - cbn [advance]. rewrite Z.mod_small; lia.
  - cbn [advance]. pose proof (step_position this Hpos) as Hstep.
    rewrite IH; rewrite Hstep; case_decide; try lia.
    all: div_lia.
Qed.

Lemma well_formed_position this :
  well_formed this → (1 <= position this <= 64)%nat.
Proof.
  intros (_ & _ & _ & Hc). unfold position.
  destruct (Nat.eqb_spec (_byteCounter this) 0); lia.
Qed.

End Shape.

(** X3: an engine returned by the constructor keeps its shape through any
    sequence of calls, accepted or rejected: 16 state words, 64 keystream
    entries each between 0 and 255, a cursor of at most 64, and at least 1
    once a byte has been processed. *)
Theorem X3_engine_shape_is_kept
    (h : gmap positive (list byte)) (key nonce : value) (counter : option Z)
    (E : Chacha20) (cs : list call) :
  constructor h key nonce counter = Ok E →
  well_formed (run E cs).2
  ∧ ((0 < total_bytes cs)%nat → (1 <= _byteCounter (run E cs).2)%nat).
Proof.
  intros HE. apply constructor_Ok_inv in HE as (k & n & _ & _ & _ & _ & ->).
  rewrite run_advance. apply advance_well_formed, initial_well_formed.
Qed.

Lemma X3_witness :
  well_formed (run rfc_engine [mkCall Encrypt rfc_heap (VUint8Array 3)]).2
  ∧ ((0 < total_bytes [mkCall Encrypt rfc_heap (VUint8Array 3)])%nat →
     (1 <= _byteCounter (run rfc_engine [mkCall Encrypt rfc_heap (VUint8Array 3)]).2)%nat).
Proof.
  apply (X3_engine_shape_is_kept rfc_heap (VUint8Array 1) (VUint8Array 2) (Some 1)).
  vm_compute. reflexivity.
Defined.

(** X4: the cursor and the counter word after a sequence of calls depend
    on the total number [n] of bytes processed only, not on how they were
    split into calls: for an engine constructed with a 32-bit counter [c]
    and [n > 0], the cursor is [(n - 1) mod 64 + 1] and the counter word is
    [c + ceil(n / 64)]. *)
Theorem X4_cursor_and_counter_after_n_bytes
    (h : gmap positive (list byte)) (key nonce : value) (counter : option Z)
    (E : Chacha20) (cs : list call) :
  constructor h key nonce counter = Ok E →
  0 <= default 0 counter < 2 ^ 32 →
  (0 < total_bytes cs)%nat →
  Z.of_nat (total_bytes cs) <= 2 ^ 53 →
  Z.of_nat (_byteCounter (run E cs).2) = (Z.of_nat (total_bytes cs) - 1) mod 64 + 1
  ∧ get (_param (run E cs).2) 12
    = default 0 counter + (Z.of_nat (total_bytes cs) + 63) / 64.
Proof.
  intros HE Hc Hpos Hmax.
  apply constructor_Ok_inv in HE as (k & n & _ & _ & _ & _ & ->).
  rewrite run_advance. set (N := total_bytes cs) in *.
  destruct (initial_counter k n counter) as (Hl & Hp & Hw).
  pose proof (initial_well_formed k n counter) as Hwf.
  destruct (advance_well_formed N _ Hwf) as [_ Hbc]. specialize (Hbc Hpos).
  pose proof (advance_position N _ (well_formed_position _ Hwf)) as HP.
  rewrite Hp in HP. split.
  - unfold position in HP.
    destruct (Nat.eqb_spec (_byteCounter (advance N (initial k n counter))) 0);
      [lia|].
    rewrite HP. revert Hpos. clear. div_lia.
  - rewrite advance_counter; rewrite ?Hl, ?Hp, ?Hw; try lia.
    + f_equal. f_equal. lia.
    + revert Hc Hmax. clear. div_lia.
Qed.

Lemma X4_witness :
  Z.of_nat (_byteCounter (run rfc_engine [mkCall Encrypt rfc_heap (VUint8Array 3)]).2)
  = (Z.of_nat (total_bytes [mkCall Encrypt rfc_heap (VUint8Array 3)]) - 1) mod 64 + 1
  ∧ get (_param (run rfc_engine [mkCall Encrypt rfc_heap (VUint8Array 3)]).2) 12
    = default 0 (Some 1)
      + (Z.of_nat (total_bytes [mkCall Encrypt rfc_heap (VUint8Array 3)]) + 63) / 64.
Proof.
  apply (X4_cursor_and_counter_after_n_bytes rfc_heap (VUint8Array 1) (VUint8Array 2)).
  - vm_compute. reflexivity.
  - simpl. lia.
  - vm_compute. lia.
  - vm_compute. discriminate.
Defined.

(** ** The stream as the specification describes it *)

Section SpecStream.

Implicit Types (this : Chacha20) (d : list byte) (ks : list Z).

Lemma xor_small (a k : Z) :
  0 <= a < 256 → 0 <= k < 256 → JS.xor a k = Z.lxor a k.
Proof.
  intros Ha Hk. unfold JS.xor.
  by rewrite !ToInt32_id by (unfold int32; lia).
Qed.

Lemma spec_xor_cons x d k ks :
  spec_xor (x :: d) (k :: ks) = u8_of_Z (Z.lxor (u8_to_Z x) k) :: spec_xor d ks.
Proof. done. Qed.

Lemma spec_xor_app_short d ks1 ks2 :
  (length d <= length ks1)%nat → spec_xor d (ks1 ++ ks2) = spec_xor d ks1.
Proof.
  revert ks1. induction d as [|x d IH]; intros [|k ks1] Hlen; try done.
  - cbn [length] in Hlen. lia.
  - cbn [app]. rewrite !spec_xor_cons, IH; [done|]. cbn [length] in Hlen. lia.
Qed.

Lemma spec_xor_app d1 d2 ks1 ks2 :
  length d1 = length ks1 →
  spec_xor (d1 ++ d2) (ks1 ++ ks2) = spec_xor d1 ks1 ++ spec_xor d2 ks2.
Proof. intros Hlen. unfold spec_xor. by apply zip_with_app. Qed.

(** Inside a block: no block is generated, the bytes are combined with the
    entries of [_keystream] from the cursor on. *)
Lemma xor_stream_within d : ∀ this,
  (1 <= _byteCounter this)%nat →
  (_byteCounter this + length d <= 64)%nat →
  length (_keystream this) = 64%nat →
  Forall (λ k, 0 <= k < 256) (_keystream this) →
  xor_stream this d
  = (spec_xor d (drop (_byteCounter this) (_keystream this)),
     {| _param := _param this;
        _keystream := _keystream this;
        _byteCounter := _byteCounter this + length d |}).
Proof.
  induction d as [|x d IH]; intros this H1 H64 Hk Hb.
  - cbn [xor_stream length]. f_equal. destruct this as [p k c].
    cbn [_param _keystream _byteCounter]. f_equal. lia.
  - cbn [length] in H64. rewrite xor_stream_cons.
    rewrite refill_no_block by lia. unfold next_keystream. cbn [fst snd].
    destruct (lookup_lt_is_Some_2 (_keystream this) (_byteCounter this)) as [k Ek];
      [lia|].
    rewrite IH; cbn [_param _keystream _byteCounter]; try done; try lia.
    rewrite (drop_S _ _ _ Ek), spec_xor_cons. unfold get. rewrite Ek.
    cbn [from_option id fst snd length].
    rewrite xor_small; [|apply u8_to_Z_range|exact (proj1 (Forall_lookup _ _) Hb _ _ Ek)].
    do 2 f_equal. lia.
Qed.

(** At a block boundary: a block is generated from the state, the counter
    word grows by one, and up to 64 bytes are combined with the block. *)
Lemma xor_stream_block this d :
  well_formed this → position this = 64%nat →
  bounded (2 ^ 48) (_param this) →
  Z.abs (get (_param this) 12 + 1) <= 2 ^ 53 →
  d ≠ [] → (length d <= 64)%nat →
  xor_stream this d
  = (spec_xor d (Spec.block (JS.ToUint32 <$> _param this)),
     {| _param := <[12%nat := get (_param this) 12 + 1]> (_param this);
        _keystream := Spec.block (JS.ToUint32 <$> _param this);
        _byteCounter := length d |}).
Proof.
  intros (Hp & Hk & Hb & Hc) Hpos Hbd Hsafe Hne Hlen.
  destruct d as [|x d]; [done|]. cbn [length] in Hlen.
  assert (Hbc : _byteCounter this = 0%nat ∨ _byteCounter this = 64%nat).
  { unfold position in Hpos. destruct (Nat.eqb_spec (_byteCounter this) 0); auto. }
  rewrite xor_stream_cons, (refill_block this Hbc).
  rewrite <- (chacha_spec this Hp Hk Hbd).
  pose proof (chacha_keystream_bytes this Hp Hk) as HKb.
  pose proof (chacha_keystream_length this) as HKl. rewrite Hk in HKl.
  revert HKb HKl. generalize (_keystream (_chacha this)). intros K HKb HKl.
  unfold next_keystream. cbn [fst snd _param _keystream _byteCounter].
  unfold JS.add at 1 2. rewrite !fl_small by done.
  rewrite xor_stream_within; cbn [_param _keystream _byteCounter]; try done; try lia.
  destruct K as [|k0 K]; [done|]. cbn [drop]. rewrite spec_xor_cons.
  unfold get at 1. cbn [lookup list_lookup from_option id fst snd length].
  rewrite xor_small; [done|apply u8_to_Z_range|by apply Forall_cons in HKb as [? _]].
Qed.

Lemma spec_block_length this :
  length (_param this) = 16%nat → length (_keystream this) = 64%nat →
  bounded (2 ^ 48) (_param this) →
  length (Spec.block (JS.ToUint32 <$> _param this)) = 64%nat.
Proof.
  intros Hp Hk Hb. rewrite <- (chacha_spec this Hp Hk Hb).
  by rewrite chacha_keystream_length.
Qed.

Lemma ToUint32_succ x : JS.ToUint32 (x + 1) = Spec.add32 (JS.ToUint32 x) 1.
Proof. unfold JS.ToUint32, Spec.add32. by rewrite Zplus_mod_idemp_l. Qed.

(** A whole stream from a block boundary: the bytes are combined with the
    blocks of the successive states. *)
Lemma xor_stream_spec (n : nat) : ∀ this d,
  well_formed this → position this = 64%nat →
  bounded (2 ^ 48) (_param this) →
  0 <= get (_param this) 12 →
  get (_param this) 12 + Z.of_nat n <= 2 ^ 48 →
  (length d <= 64 * n)%nat →
  (xor_stream this d).1
  = spec_xor d (spec_keystream n (JS.ToUint32 <$> _param this)).
Proof.
  induction n as [|n IH]; intros this d Hwf Hpos Hbd Hc0 Hcn Hlen.
  - destruct d; [done|]. cbn [length] in Hlen. lia.
  - destruct (decide (d = [])) as [->|Hne]; [done|].
    cbn [spec_keystream].
    pose proof Hwf as (Hp & Hk & Hb & Hbc).
    pose proof (spec_block_length this Hp Hk Hbd) as HBl.
    rewrite <- (take_drop 64 d) at 1 2.
    assert (Hd1 : take 64 d ≠ []) by (destruct d; done).
    assert (Hl1 : (length (take 64 d) <= 64)%nat) by (rewrite length_take; lia).
    rewrite xor_stream_app.
    rewrite (xor_stream_block this (take 64 d)); try done; [|lia].
    cbn [fst snd].
    destruct (decide (drop 64 d = [])) as [E|Hd2].
    + rewrite E. cbn [xor_stream fst]. rewrite !app_nil_r.
      by rewrite spec_xor_app_short by lia.
    + assert (Hl64 : length (take 64 d) = 64%nat).
      { rewrite length_take. apply Nat.min_l.
        destruct (Nat.le_gt_cases 64 (length d)) as [|Hlt]; [done|].
        destruct Hd2. apply drop_ge. lia. }
      rewrite spec_xor_app by lia. f_equal.
      rewrite IH; cbn [_param _keystream _byteCounter].
      * rewrite list_fmap_insert, ToUint32_succ, get_fmap_ToUint32. done.
      * unfold well_formed. cbn [_param _keystream _byteCounter].
        rewrite length_insert, Hl64. repeat split; try done.
        rewrite <- (chacha_spec this Hp Hk Hbd).
        by apply chacha_keystream_bytes.
      * unfold position. cbn [_byteCounter]. by rewrite Hl64.
      * apply bounded_insert; [done|]. lia.
      * rewrite get_insert_eq by lia. lia.
      * rewrite get_insert_eq by lia. lia.
      * rewrite length_drop. lia.
Qed.

End SpecStream.

(** ** The state of a new engine as the specification lays it out *)

Section SpecState.

Lemma bits_above_small (n z : Z) :
  0 <= n → (∀ i, n <= i → Z.testbit z i = false) → 0 <= z < 2 ^ n.
Proof.
  intros Hn H.
  assert (H0 : 0 <= z).
  { apply Z.bits_iff_nonneg_ex. exists n. intros m Hm. apply H. lia. }
  assert (E : z mod 2 ^ n = z).
  { apply Z.bits_inj'. intros i Hi. destruct (Z_lt_dec i n).
    - apply Z.mod_pow2_bits_low. lia.
    - rewrite Z.mod_pow2_bits_high by lia. symmetry. apply H. lia. }
  pose proof (Z.mod_pos_bound z (2 ^ n) ltac:(lia)). lia.
Qed.

Lemma get8_high_bits (data : list byte) (j : nat) (i : Z) :
  8 <= i → Z.testbit (get8 data j) i = false.
Proof.
  intros Hi. unfold get8. destruct (data !! j) as [b|]; cbn.
  - by apply u8_high_bits.
  - apply Z.testbit_0_l.
Qed.

Lemma le_word_at_testbit (data : list byte) (j : nat) (i : Z) :
  0 <= i →
  Z.testbit (le_word_at data j) i
  = if decide (i < 8) then Z.testbit (get8 data (4 * j)) i
    else if decide (i < 16) then Z.testbit (get8 data (4 * j + 1)) (i - 8)
    else if decide (i < 24) then Z.testbit (get8 data (4 * j + 2)) (i - 16)
    else Z.testbit (get8 data (4 * j + 3)) (i - 24).
Proof.
  intros Hi. unfold le_word_at, Spec.le_word.
  rewrite !Z.lor_spec, !Z.shiftl_spec by done.
  repeat case_decide.
  - rewrite !(Z.testbit_neg_r _ (i - _)) by lia. by rewrite !orb_false_r.
  - rewrite (get8_high_bits _ _ i) by lia.
    rewrite (Z.testbit_neg_r _ (i - 16)), (Z.testbit_neg_r _ (i - 24)) by lia.
    by rewrite !orb_false_r.
  - rewrite (get8_high_bits _ _ i), (get8_high_bits _ _ (i - 8)) by lia.
    rewrite (Z.testbit_neg_r _ (i - 24)) by lia. by rewrite !orb_false_r.
  - by rewrite (get8_high_bits _ _ i), (get8_high_bits _ _ (i - 8)),
      (get8_high_bits _ _ (i - 16)) by lia.
Qed.

Lemma le_word_at_range (data : list byte) (j : nat) :
  0 <= le_word_at data j < 2 ^ 32.
Proof.
  apply bits_above_small; [lia|]. intros i Hi.
  rewrite le_word_at_testbit by lia.
  repeat case_decide; try lia. apply get8_high_bits. lia.
Qed.

(** Read modulo 2^32, the word [_get32] returns is the little-endian word
    of the specification. *)
Lemma get32_unsigned (data : list byte) (j : nat) :
  (4 * j + 3 < length data)%nat →
  JS.ToUint32 (_get32 data (4 * j)) = le_word_at data j.
Proof.
  intros Hlen. rewrite get32_le_word_at by done.
  unfold JS.ToUint32. rewrite ToInt32_mod.
  apply Z.mod_small, le_word_at_range.
Qed.

Lemma initial_spec_state (key nonce : list byte) (counter : option Z) :
  length key = 32%nat → length nonce = 12%nat →
  JS.ToUint32 <$> _param (initial key nonce counter)
  = spec_state key nonce (default 0 counter).
Proof.
  intros Hk Hn. unfold initial, spec_state.
  cbn [_param fmap list_fmap seq app].
  rewrite <- !(get32_unsigned key) by lia.
  rewrite <- !(get32_unsigned nonce) by lia.
  done.
Qed.

End SpecState.

(** ** A new engine against the specification's stream *)

Section Encrypt.

Implicit Types (this : Chacha20) (d : list byte).

Lemma blocks_enough (l : nat) :
  (l <= 64 * S (l / 64))%nat ∧ (64 * (l / 64) <= l)%nat.
Proof.
  pose proof (Nat.div_mod_eq l 64). pose proof (Nat.mod_upper_bound l 64). lia.
Qed.

Lemma initial_bounded_wide key nonce counter :
  0 <= default 0 counter <= 2 ^ 48 →
  bounded (2 ^ 48) (_param (initial key nonce counter)).
Proof.
  intros Hc. unfold initial, bounded. cbn [_param].
  repeat (apply Forall_cons_2; [try lia|]); try apply Forall_nil_2.
  all: unfold _get32;
    match goal with
    | |- Z.abs (JS.xor ?a ?b) <= _ => pose proof (int32_abs _ (xor_int32 a b)); lia
    end.
Qed.

(** The output of a first call on a new engine. *)
Lemma initial_stream key nonce counter d :
  length key = 32%nat → length nonce = 12%nat →
  0 <= default 0 counter <= 2 ^ 47 →
  Z.of_nat (length d) <= 2 ^ 47 →
  (xor_stream (initial key nonce counter) d).1
  = spec_encrypt key nonce (default 0 counter) d.
Proof.
  intros Hk Hn Hc Hd. unfold spec_encrypt.
  destruct (initial_counter key nonce counter) as (Hl & Hp & Hw).
  destruct (blocks_enough (length d)) as [Hb1 Hb2].
  rewrite <- initial_spec_state by done.
  apply xor_stream_spec; rewrite ?Hw; try done; try lia.
  - apply initial_well_formed.
  - apply initial_bounded_wide. lia.
Qed.



End Encrypt.

(** X5: the first call on a new engine computes the stream cipher of the
    specification: for a 32-byte key, a 12-byte nonce, a counter [c] from 0
    to 2^47 and up to 2^47 bytes of data, the output is the data combined
    by exclusive or with the blocks of the states whose counter words are
    [c], [c + 1], ... modulo 2^32, where the first state holds the
    constants, the little-endian words of the key, [c mod 2^32] and the
    little-endian words of the nonce. *)
Theorem X5_first_call_is_the_specified_stream
    (h hd : gmap positive (list byte)) (key nonce : value) (counter : option Z)
    (E : Chacha20) (k n : list byte) (m : method) (data : positive)
    (d : list byte) :
  constructor h key nonce counter = Ok E →
  as_Uint8Array h key = Some k → as_Uint8Array h nonce = Some n →
  0 <= default 0 counter <= 2 ^ 47 →
  hd !! data = Some d → d ≠ [] → Z.of_nat (length d) <= 2 ^ 47 →
  outcome (invoke (mkCall m hd (VUint8Array data)) E)
  = Ok (spec_encrypt k n (default 0 counter) d).
Proof.
  intros HE Hk Hn Hc Hd Hne Hlen.
  apply constructor_Ok_inv in HE as (k' & n' & Hk' & Hk32 & Hn' & Hn12 & ->).
  assert (k' = k) as -> by congruence. assert (n' = n) as -> by congruence.
  destruct (invoke_valid (mkCall m hd (VUint8Array data)) (initial k n counter) d Hd Hne)
    as [-> _].
  f_equal. by apply initial_stream.
Qed.

Lemma X5_witness :
  outcome (invoke (mkCall Encrypt rfc_heap (VUint8Array 3)) rfc_engine)
  = Ok (spec_encrypt rfc_key rfc_nonce (default 0 (Some 1)) rfc_text).
Proof.
  apply (X5_first_call_is_the_specified_stream rfc_heap rfc_heap
           (VUint8Array 1) (VUint8Array 2) (Some 1) rfc_engine
           rfc_key rfc_nonce Encrypt 3 rfc_text).
  - vm_compute. reflexivity.
  - reflexivity.
  - reflexivity.
  - simpl. lia.
  - reflexivity.
  - discriminate.
  - vm_compute. discriminate.
Defined.



(** X7: only the counter modulo 2^32 matters.  Two engines constructed
    from the same key and nonce with counters that are congruent modulo
    2^32 give the same output on the same data. *)
Theorem X7_counters_congruent_modulo_2_32
    (h1 h2 : gmap positive (list byte)) (key1 nonce1 key2 nonce2 : value)
    (c1 c2 : Z) (E1 E2 : Chacha20) (c0 : call) (d : list byte) :
  as_Uint8Array h1 key1 = as_Uint8Array h2 key2 →
  as_Uint8Array h1 nonce1 = as_Uint8Array h2 nonce2 →
  constructor h1 key1 nonce1 (Some c1) = Ok E1 →
  constructor h2 key2 nonce2 (Some c2) = Ok E2 →
  0 <= c1 <= 2 ^ 47 → 0 <= c2 <= 2 ^ 47 →
  c1 mod 2 ^ 32 = c2 mod 2 ^ 32 →
  call_bytes c0 = Some d → d ≠ [] → Z.of_nat (length d) <= 2 ^ 47 →
  outcome (invoke c0 E1) = outcome (invoke c0 E2).
Proof.
  intros Hk Hn HE1 HE2 Hc1 Hc2 Hmod Hd Hne Hlen.
  apply constructor_Ok_inv in HE1 as (k & n & Hk1 & Hk32 & Hn1 & Hn12 & ->).
  apply constructor_Ok_inv in HE2 as (k' & n' & Hk2 & _ & Hn2 & _ & ->).
  assert (k' = k) as -> by congruence. assert (n' = n) as -> by congruence.
  destruct (invoke_valid c0 (initial k n (Some c1)) d Hd Hne) as [-> _].
  destruct (invoke_valid c0 (initial k n (Some c2)) d Hd Hne) as [-> _].
  rewrite !initial_stream by done. cbn [from_option id].
  unfold spec_encrypt, spec_state. by rewrite Hmod.
Qed.

Lemma X7_witness :
  outcome (invoke (mkCall Encrypt rfc_heap (VUint8Array 3))
             (initial rfc_key rfc_nonce (Some 1)))
  = outcome (invoke (mkCall Encrypt rfc_heap (VUint8Array 3))
               (initial rfc_key rfc_nonce (Some 4294967297))).
Proof.
  apply (X7_counters_congruent_modulo_2_32 rfc_heap rfc_heap
           (VUint8Array 1) (VUint8Array 2) (VUint8Array 1) (VUint8Array 2)
           1 4294967297 _ _ (mkCall Encrypt rfc_heap (VUint8Array 3)) rfc_text).
  - reflexivity.
  - reflexivity.
  - vm_compute. reflexivity.
  - vm_compute. reflexivity.
  - lia.
  - lia.
  - reflexivity.
  - reflexivity.
  - discriminate.
  - vm_compute. discriminate.
Defined.

(** ** The helpers of the block function *)

Section Helpers.

Implicit Types (o : list Z) (a b c d j : nat) (s x w i : Z).

Lemma uint32_high_bits w i : 0 <= w < 2 ^ 32 → 32 <= i → Z.testbit w i = false.
Proof.
  intros Hw Hi. rewrite <- (Z.mod_small w (2 ^ 32)) by lia.
  apply Z.mod_pow2_bits_high. lia.
Qed.

Lemma rotl32_testbit w s i :
  0 < s < 32 → 0 <= w < 2 ^ 32 → 0 <= i →
  Z.testbit (Spec.rotl32 w s) i
  = if decide (i < 32)
    then if decide (s <= i) then Z.testbit w (i - s) else Z.testbit w (i + (32 - s))
    else false.
Proof.
  intros Hs Hw Hi. unfold Spec.rotl32. case_decide.
  - rewrite Z.mod_pow2_bits_low by lia.
    rewrite Z.lor_spec, Z.shiftl_spec, Z.shiftr_spec by lia. case_decide.
    + rewrite (uint32_high_bits w (i + (32 - s))) by lia. apply orb_false_r.
    + by rewrite (Z.testbit_neg_r w (i - s)) by lia.
  - apply Z.mod_pow2_bits_high. lia.
Qed.

Lemma rotl32_range w s : 0 <= Spec.rotl32 w s < 2 ^ 32.
Proof. unfold Spec.rotl32. by apply Z.mod_pos_bound. Qed.

Lemma rotl32_back w s :
  0 < s < 32 → 0 <= w < 2 ^ 32 → Spec.rotl32 (Spec.rotl32 w s) (32 - s) = w.
Proof.
  intros Hs Hw. apply Z.bits_inj'. intros i Hi.
  rewrite rotl32_testbit by (lia || apply rotl32_range).
  case_decide; [|by rewrite uint32_high_bits by lia].
  case_decide; rewrite rotl32_testbit by lia.
  - rewrite decide_True by lia. rewrite decide_False by lia. f_equal. lia.
  - rewrite decide_True by lia. rewrite decide_True by lia. f_equal. lia.
Qed.

Lemma qr_line_lookup o (x y z : nat) s j :
  j ≠ x → j ≠ y → qr_line o x y z s !! j = o !! j.
Proof.
  intros Hx Hy. unfold qr_line. by rewrite !list_lookup_insert_ne.
Qed.

Lemma to_uint32_at_lookup o (i j : nat) : j ≠ i → to_uint32_at o i !! j = o !! j.
Proof. intros H. unfold to_uint32_at. by rewrite list_lookup_insert_ne. Qed.

Lemma to_uint32_at_range o (i j : nat) :
  (j = i ∨ 0 <= get o j < 2 ^ 32) → 0 <= get (to_uint32_at o i) j < 2 ^ 32.
Proof.
  intros H. rewrite to_uint32_at_get. case_decide; [apply ToUint32_range|].
  by destruct H.
Qed.

End Helpers.

(** X8: [_rotl] rotates the 32-bit word of its argument.  For a shift
    between 1 and 31 its result is a signed 32-bit integer, and rotating
    the result by the complementary shift gives back the argument modulo
    2^32. *)
Theorem X8_rotl_is_a_rotation (x s : Z) :
  0 < s < 32 →
  int32 (_rotl x s)
  ∧ JS.ToUint32 (_rotl (_rotl x s) (32 - s)) = JS.ToUint32 x.
Proof.
  intros Hs. split; [apply rotl_int32|].
  rewrite !ToUint32_rotl by lia.
  apply rotl32_back; [done|apply ToUint32_range].
Qed.

Lemma X8_witness :
  int32 (_rotl 0x9b8d6f43 7)
  ∧ JS.ToUint32 (_rotl (_rotl 0x9b8d6f43 7) (32 - 7)) = JS.ToUint32 0x9b8d6f43.
Proof. apply (X8_rotl_is_a_rotation 0x9b8d6f43 7). lia. Defined.

(** X9: [_quarterround] changes at most the four words it is given.  The
    array keeps its length, every other word is left as it was, and the four
    words end as 32-bit unsigned integers. *)
Theorem X9_quarterround_touches_four_words (o : list Z) (a b c d : nat) :
  length (_quarterround o a b c d) = length o
  ∧ (∀ j, j ≠ a → j ≠ b → j ≠ c → j ≠ d →
          _quarterround o a b c d !! j = o !! j)
  ∧ (∀ j, j = a ∨ j = b ∨ j = c ∨ j = d →
          0 <= get (_quarterround o a b c d) j < 2 ^ 32).
Proof.
  split; [apply quarterround_length|]. split.
  - intros j Ha Hb Hc Hd. unfold _quarterround.
    by rewrite !to_uint32_at_lookup, !qr_line_lookup.
  - intros j Hj. unfold _quarterround.
    apply to_uint32_at_range. destruct (decide (j = d)) as [|Hd]; [by left|right].
    apply to_uint32_at_range. destruct (decide (j = c)) as [|Hc]; [by left|right].
    apply to_uint32_at_range. destruct (decide (j = b)) as [|Hb]; [by left|right].
    apply to_uint32_at_range. left. tauto.
Qed.

Lemma X9_witness :
  0 <= get (_quarterround [0x11111111; 0x01020304; 0x9b8d6f43; 0x01234567; 7] 0 1 2 3) 2
  < 2 ^ 32.
Proof.
  apply (proj2 (proj2 (X9_quarterround_touches_four_words
           [0x11111111; 0x01020304; 0x9b8d6f43; 0x01234567; 7] 0 1 2 3))).
  right. right. left. reflexivity.
Defined.

(** ** Reading and writing little-endian words *)

Section LittleEndian.

Lemma le_word_at_byte (data : list byte) (j : nat) (k : Z) :
  0 <= k < 4 →
  (le_word_at data j / 2 ^ (8 * k)) mod 256
  = get8 data (4 * j + Z.to_nat k).
Proof.
  intros Hk. apply Z.bits_inj'. intros i Hi. change 256 with (2 ^ 8).
  destruct (Z_lt_dec i 8) as [Hlt|Hge].
  - rewrite Z.mod_pow2_bits_low by lia.
    rewrite Z.div_pow2_bits by lia.
    rewrite le_word_at_testbit by lia.
    assert (Hk4 : k = 0 ∨ k = 1 ∨ k = 2 ∨ k = 3) by lia.
    destruct Hk4 as [-> | [-> | [-> | ->]]];
      repeat case_decide; try lia; cbn [Z.to_nat Pos.to_nat Pos.iter_op Nat.add];
      rewrite ?Nat.add_0_r; f_equal; lia.
  - rewrite Z.mod_pow2_bits_high by lia. symmetry. apply get8_high_bits. lia.
Qed.

End LittleEndian.

(** X10: the way [_chacha] writes a word (lines 152 to 155) inverts the way
    [_get32] reads one.  For four bytes inside the array, the four numbers
    that [_chacha] stores for the word [_get32] returns are those bytes in
    order, although the word itself may be negative. *)
Theorem X10_word_bytes_round_trip (data : list byte) (j : nat) :
  (4 * j + 3 < length data)%nat →
  js_bytes (_get32 data (4 * j))
  = [get8 data (4 * j); get8 data (4 * j + 1);
     get8 data (4 * j + 2); get8 data (4 * j + 3)]
  ∧ int32 (_get32 data (4 * j))
  ∧ JS.ToUint32 (_get32 data (4 * j)) = le_word_at data j.
Proof.
  intros Hlen. split; [|split].
  - unfold js_bytes. rewrite and_FF.
    rewrite (and_FF_shr _ 1), (and_FF_shr _ 2), (and_FF_shr _ 3) by lia.
    rewrite get32_unsigned by done.
    pose proof (le_word_at_byte data j 0 ltac:(lia)) as H0.
    pose proof (le_word_at_byte data j 1 ltac:(lia)) as H1.
    pose proof (le_word_at_byte data j 2 ltac:(lia)) as H2.
    pose proof (le_word_at_byte data j 3 ltac:(lia)) as H3.
    change (8 * 0) with 0 in H0. rewrite Z.pow_0_r, Z.div_1_r in H0.
    change (Z.to_nat 0) with 0%nat in H0. rewrite Nat.add_0_r in H0.
    rewrite H0, H1, H2, H3. done.
  - unfold _get32. apply xor_int32.
  - by apply get32_unsigned.
Qed.

Lemma X10_witness :
  js_bytes (_get32 high_key (4 * 0))
  = [get8 high_key (4 * 0); get8 high_key (4 * 0 + 1);
     get8 high_key (4 * 0 + 2); get8 high_key (4 * 0 + 3)]
  ∧ int32 (_get32 high_key (4 * 0))
  ∧ JS.ToUint32 (_get32 high_key (4 * 0)) = le_word_at high_key 0.
Proof. apply (X10_word_bytes_round_trip high_key 0). simpl. lia. Defined.

(** ** The block as a function of the state *)

Section BlockFunction.

Lemma engine_eq (e1 e2 : Chacha20) :
  _param e1 = _param e2 → _keystream e1 = _keystream e2 →
  _byteCounter e1 = _byteCounter e2 → e1 = e2.
Proof. destruct e1, e2. cbn. by intros -> -> ->. Qed.

End BlockFunction.

(** X11: the block [_chacha] writes is a function of the 16 state words
    alone.  On engines with 16 state words and 64 keystream entries, the
    same [_param] gives the same keystream whatever [_keystream] held before
    and wherever the cursor is, each entry is a byte, and calling [_chacha]
    again changes nothing. *)
Theorem X11_block_depends_on_state_only (this1 this2 : Chacha20) :
  length (_param this1) = 16%nat →
  length (_keystream this1) = 64%nat → length (_keystream this2) = 64%nat →
  _param this1 = _param this2 →
  _keystream (_chacha this1) = _keystream (_chacha this2)
  ∧ Forall (λ k, 0 <= k < 256) (_keystream (_chacha this1))
  ∧ _chacha (_chacha this1) = _chacha this1.
Proof.
  intros Hp Hk1 Hk2 Hpar. split; [|split].
  - rewrite !chacha_keystream by congruence. by rewrite Hpar.
  - by apply chacha_keystream_bytes.
  - pose proof (chacha_param this1) as E1.
    pose proof (chacha_byteCounter this1) as E2.
    pose proof (chacha_keystream_length this1) as E3.
    pose proof (chacha_keystream this1 Hp Hk1) as E4.
    revert E1 E2 E3 E4. generalize (_chacha this1). intros e E1 E2 E3 E4.
    apply engine_eq.
    + rewrite chacha_param. done.
    + rewrite chacha_keystream by congruence. by rewrite E1, E4.
    + rewrite chacha_byteCounter. done.
Qed.

Lemma X11_witness :
  _keystream (_chacha rfc_engine)
  = _keystream (_chacha {| _param := _param rfc_engine;
                           _keystream := replicate 64 255;
                           _byteCounter := 17 |})
  ∧ Forall (λ k, 0 <= k < 256) (_keystream (_chacha rfc_engine))
  ∧ _chacha (_chacha rfc_engine) = _chacha rfc_engine.
Proof.
  apply (X11_block_depends_on_state_only rfc_engine
           {| _param := _param rfc_engine;
              _keystream := replicate 64 255;
              _byteCounter := 17 |}).
  - reflexivity.
  - reflexivity.
  - reflexivity.
  - reflexivity.
Defined.

(** X12: decryption does not need the call lengths of encryption.  When an
    engine has encrypted a sequence of non-empty plaintexts, an engine that
    starts in the same state and is given the ciphertext stream split into
    calls in any other way returns the plaintext stream, and ends in the
    state of the first. *)
Theorem X12_decrypt_in_any_chunks
    (this : Chacha20) (cs1 : list call) (ps : list (list byte)) :
  Forall2 (λ c p, call_bytes c = Some p ∧ p ≠ []) cs1 ps →
  ∃ cts,
    (run this cs1).1 = Ok <$> cts
    ∧ ∀ (cs2 : list call) (qs : list (list byte)),
        Forall2 (λ c q, call_bytes c = Some q ∧ q ≠ []) cs2 qs →
        concat qs = concat cts →
        ∃ outs,
          (run this cs2).1 = Ok <$> outs
          ∧ concat outs = concat ps
          ∧ (run this cs2).2 = (run this cs1).2.
Proof.
  intros H1. exists (xor_chunks this ps).1.
  rewrite (run_valid this cs1 ps H1). cbn [fst snd]. split; [done|].
  intros cs2 qs H2 Hcat. exists (xor_chunks this qs).1.
  rewrite (run_valid this cs2 qs H2). cbn [fst snd]. split; [done|].
  pose proof (xor_chunks_concat this qs) as Eq.
  pose proof (xor_chunks_concat this ps) as Ep.
  pose proof (xor_stream_involutive this (concat ps)) as Einv.
  rewrite Ep in Einv. cbn [fst snd] in Einv.
  rewrite Hcat, Einv in Eq. by injection Eq as <- <-.
Qed.

Lemma X12_witness :
  ∃ cts,
    (run rfc_engine [mkCall Encrypt rfc_heap (VUint8Array 3)]).1 = Ok <$> cts
    ∧ ∀ (cs2 : list call) (qs : list (list byte)),
        Forall2 (λ c q, call_bytes c = Some q ∧ q ≠ []) cs2 qs →
        concat qs = concat cts →
        ∃ outs,
          (run rfc_engine cs2).1 = Ok <$> outs
          ∧ concat outs = concat [rfc_text]
          ∧ (run rfc_engine cs2).2
            = (run rfc_engine [mkCall Encrypt rfc_heap (VUint8Array 3)]).2.
Proof.
  apply (X12_decrypt_in_any_chunks rfc_engine
           [mkCall Encrypt rfc_heap (VUint8Array 3)] [rfc_text]).
  constructor; [split; [reflexivity|discriminate]|]. constructor.
Defined.
